(** * gatewayd: the proxy session engine (network/proxy.go)

    A shallow embedding of [ProxyImpl] and of the helpers of
    network/utils.go it calls.  The engine owns two connection pools and
    maps inbound connections to backend clients; its methods are embedded as
    functions over an explicit engine state.  Everything outside the engine
    (sockets, backend clients, the hook pipeline, the logger) is reached
    through a record of collaborators, [Env], and leaves a mark in a trace
    of events that is part of the state. *)

From Stdlib Require Import ZArith Lia DecimalString.
From stdpp Require Import base option list strings gmap fin_maps sorting.
From Stdlib Require Import Init.Byte.

Local Open Scope Z_scope.
Local Open Scope string_scope.
Local Open Scope list_scope.

(** ** Go values *)

(** The bytes a slice holds are a list of bytes.  A byte slice ([[]byte]) is
    an [option] of that: [None] is the nil slice, which the code tells from
    an empty one ([modRequest != nil]) and hands on as it is. *)
Abbreviation bytes := (list byte).

(** [len(s)]. *)
Definition len (s : option bytes) : Z :=
  match s with
  | Some b => Z.of_nat (length b)
  | None => 0
  end.

(** The name of an inbound connection handle (a [gnet.Conn]). *)
Definition Conn := nat.

(** [s[:n]] on a byte slice: a run-time panic outside the slice, written
    [None].  The capacity of the slice is taken to be its length, so the nil
    slice can only be cut at 0, and is nil again. *)
Definition slice_to (s : option bytes) (n : Z) : option (option bytes) :=
  match s with
  | None => if bool_decide (n = 0) then Some None else None
  | Some b =>
      if bool_decide (0 <= n <= Z.of_nat (length b))
      then Some (Some (take (Z.to_nat n) b)) else None
  end.

(** ** Errors (package errors, seen through its uses) *)

Inductive ErrCode :=
  | PoolExhausted
  | ClientNotFound
  | ClientNotConnected
  | CastFailed
  | ServerSendFailed
  | OtherCode (n : nat).

(** A Go [error] value: [io.EOF], an opaque error, an error that wraps
    another one, or a [*GatewayDError] seen as an [error]. *)
Inductive GoError :=
  | io_EOF
  | ErrorString (msg : string)
  | WrapsError (msg : string) (inner : GoError)
  | GatewayDErr (code : ErrCode)
  | GatewayDWraps (code : ErrCode) (orig : GoError).

Record GatewayDError := mkGatewayDError {
  Code : ErrCode;
  OriginalError : option GoError
}.

Definition as_error (e : GatewayDError) : GoError :=
  match OriginalError e with
  | None => GatewayDErr (Code e)
  | Some orig => GatewayDWraps (Code e) orig
  end.

Definition ErrPoolExhausted := mkGatewayDError PoolExhausted None.
Definition ErrClientNotFound := mkGatewayDError ClientNotFound None.
Definition ErrClientNotConnected := mkGatewayDError ClientNotConnected None.
Definition ErrCastFailed := mkGatewayDError CastFailed None.
Definition ErrServerSendFailed := mkGatewayDError ServerSendFailed None.

(** Modelled from the spec: [GatewayDError.Wrap] (package errors is not in
    the sources); the error keeps its kind and carries the given cause. *)
Definition Wrap (e : GatewayDError) (cause : option GoError) : GatewayDError :=
  mkGatewayDError (Code e) cause.

(** [err.Unwrap()] on a non-nil [*GatewayDError]. *)
Definition Unwrap (e : GatewayDError) : option GoError := OriginalError e.

(** [errors.Is(err, io.EOF)] of the Go library: follow the chain of
    wrapped errors. *)
Fixpoint chain_has_EOF (e : GoError) : bool :=
  match e with
  | io_EOF => true
  | ErrorString _ => false
  | WrapsError _ inner => chain_has_EOF inner
  | GatewayDErr _ => false
  | GatewayDWraps _ inner => chain_has_EOF inner
  end.

Definition errors_Is_EOF (e : option GoError) : bool :=
  match e with
  | None => false
  | Some e => chain_has_EOF e
  end.

(** [err.Error()]. *)
Definition Error_string (e : GoError) : string :=
  match e with
  | io_EOF => "EOF"
  | ErrorString msg => msg
  | WrapsError msg _ => msg
  | GatewayDErr _ | GatewayDWraps _ _ => "gatewayd error"
  end.

(** ** Backend clients *)

(** The fields of [Client] the engine reads.  [ProxyImpl.ClientConfig] is a
    [*Client] used as a template. *)
Record Client := mkClient {
  ID : string;
  Network : string;
  Address : string;
  ReceiveBufferSize : Z;
  ReceiveChunkSize : Z;
  ReceiveDeadline : Z;
  SendDeadline : Z
}.

(** ** Pool keys and values ([interface{}] in the source) *)

Inductive Key :=
  | KStr (s : string)       (* a string, as [client.ID] *)
  | KConn (g : Conn)        (* a [gnet.Conn] *)
  | KOther (n : nat).       (* a key of any other dynamic type *)

(** A pool holds non-nil [*Client] handles or values of another dynamic
    type.  A nil [*Client] is stored by the engine only on the two paths
    that crash on the next dereference (see [Connect] and [PassThrough]),
    so it is never part of a state a call starts from. *)
Inductive Value :=
  | VClient (c : Client)
  | VOther (n : nat).

Global Instance Key_eq_dec : EqDecision Key.
Proof. solve_decision. Defined.

Definition Key_enc (k : Key) : string + (nat + nat) :=
  match k with
  | KStr s => inl s
  | KConn g => inr (inl g)
  | KOther n => inr (inr n)
  end.

Definition Key_dec (x : string + (nat + nat)) : Key :=
  match x with
  | inl s => KStr s
  | inr (inl g) => KConn g
  | inr (inr n) => KOther n
  end.

Global Instance Key_countable : Countable Key.
Proof.
  refine (inj_countable' Key_enc Key_dec _).
  intros []; reflexivity.
Defined.

(** ** The connection pool *)

Module Pool.

Record t := mk {
  cap : Z;
  entries : gmap Key Value
}.

(** Modelled from the spec: package pool is not in the sources.  A pool is
    a capacity (0 for unbounded) and a mapping from keys to handles. *)
Definition NewPool (capacity : Z) : t := mk capacity ∅.

Definition Size (p : t) : Z := Z.of_nat (size (entries p)).
Definition Cap (p : t) : Z := cap p.

(** Modelled from the spec: [Put] fails with a capacity-exceeded error
    when capacity > 0 and size = capacity; otherwise the entry is written
    into the mapping, over an entry the key may have had. *)
Definition full (p : t) : bool :=
  bool_decide (0 < cap p) && bool_decide (Size p = cap p).

Definition Put (perr : GatewayDError) (p : t) (k : Key) (v : Value)
  : option GatewayDError * t :=
  if full p then (Some perr, p)
  else (None, mk (cap p) (<[k := v]> (entries p))).

(** Modelled from the spec: [Get] reads without removing; a missing key
    is reported as absent (nil in the source). *)
Definition Get (p : t) (k : Key) : option Value := entries p !! k.

(** Modelled from the spec: [Pop] removes the key and returns its value,
    absent for a missing key. *)
Definition Pop (p : t) (k : Key) : option Value * t :=
  (entries p !! k, mk (cap p) (delete k (entries p))).

(** Modelled from the spec: removing a missing key is a no-op. *)
Definition Remove (p : t) (k : Key) : t := mk (cap p) (delete k (entries p)).

Definition Clear (p : t) : t := mk (cap p) ∅.

(** The order in which [ForEach] visits the entries is not specified.  It
    is chosen by a ranking of the keys, so every order of every pool is
    covered by some ranking, and every entry is visited once. *)
Definition before (rank : Key → nat) : relation (Key * Value) :=
  λ x y, (rank x.1 ≤ rank y.1)%nat.

Global Instance before_dec rank x y : Decision (before rank x y).
Proof. unfold before. apply _. Defined.

Definition visit_order (rank : Key → nat) (p : t) : list (Key * Value) :=
  merge_sort (before rank) (map_to_list (entries p)).

(** Modelled from the spec: [ForEach] calls the visitor on the entries
    until it answers false.  The visitor threads a state [S]. *)
Fixpoint visit_all {S : Type} (visit : Key → Value → S → S * bool)
    (l : list (Key * Value)) (st : S) : S :=
  match l with
  | [] => st
  | (k, v) :: rest =>
      let '(st', continue) := visit k v st in
      if continue then visit_all visit rest st' else st'
  end.

Definition ForEach {S : Type} (rank : Key → nat) (p : t)
    (visit : Key → Value → S → S * bool) (st : S) : S :=
  visit_all visit (visit_order rank p) st.

End Pool.

(** ** The hook pipeline's payloads ([map[string]interface{}]) *)

Inductive Any :=
  | AString (s : string)
  | ABytes (b : option bytes)            (* a [[]byte]; [None] is the nil slice *)
  | AAddrs (local remote : string)       (* the nested local/remote map *)
  | AOther (n : nat).

Abbreviation HookMap := (gmap string Any).

Inductive HookType := OnIngressTraffic | OnEgressTraffic.

(** The [err interface{}] argument of [trafficData], by dynamic type. *)
Inductive ErrArg :=
  | ArgNil                                     (* the nil interface *)
  | ArgGatewayD (p : option GatewayDError)     (* a [*GatewayDError], nil or not *)
  | ArgError (e : GoError)                     (* another [error] *)
  | ArgString (s : string)
  | ArgOther (printed : string).

(** An [error] value passed as [interface{}]. *)
Definition arg_of_error (e : option GoError) : ErrArg :=
  match e with
  | None => ArgNil
  | Some (GatewayDErr c) => ArgGatewayD (Some (mkGatewayDError c None))
  | Some (GatewayDWraps c o) => ArgGatewayD (Some (mkGatewayDError c (Some o)))
  | Some e => ArgError e
  end.

(** ** Collaborators *)

(** What the engine calls and does not own.  One [Env] describes how the
    outside answers during one call of a method. *)
Record Env := mkEnv {
  (* the order in which the pools are iterated *)
  rank : Key → nat;
  (* the capacity-exceeded error of [Pool.Put] *)
  PutError : GatewayDError;
  (* [client.IsConnected()], on a client and on the nil pointer
     ([None]: the call crashes) *)
  IsConnected : Client → bool;
  IsConnected_nil : option bool;
  (* [NewClient(network, address, receiveBufferSize, receiveChunkSize,
     receiveDeadline, sendDeadline, logger)]; nil is [None] *)
  NewClient : string → string → Z → Z → Z → Z → option Client;
  (* the inbound connection *)
  Next : Conn → option bytes * option GoError;
  ConnLocalAddr : Conn → string;
  ConnRemoteAddr : Conn → string;
  AsyncWrite : Conn → option bytes → option GoError;
  (* the backend connection *)
  ClientLocalAddr : Client → string;
  ClientRemoteAddr : Client → string;
  Send : Client → option bytes → Z * option GatewayDError;
  Receive : Client → Z * option bytes * option GatewayDError;
  (* [hookConfig.Run] *)
  Run : HookMap → HookType → option HookMap * option GatewayDError
}.

(** What a call did to the outside, in order. *)
Inductive Event :=
  | LogError (msg : string)
  | Created (c : option Client)          (* [NewClient] was called and gave [c] *)
  | ClientClosed (c : Client)            (* [c.Close()] *)
  | ConnClosed (g : Conn)                (* [gconn.Close()] *)
  | HookRun (h : HookType) (payload : HookMap)
  | Sent (c : Client) (data : option bytes)     (* [c.Send(data)] *)
  | ReceiveCalled (c : Client)           (* [c.Receive()] *)
  | WriteSubmitted (g : Conn) (data : option bytes).  (* [g.AsyncWrite(data, _)] *)

(** ** network/utils.go *)

(** The keys of the map literal are written in its order.  The field value
    is stored as it is given: a nil slice stays a nil slice. *)
Definition trafficData (env : Env) (gconn : Conn) (client : Client)
    (fieldName : string) (fieldValue : option bytes) (err : ErrArg) : HookMap :=
  let data : HookMap :=
    <["error" := AString ""]>
      (<[fieldName := ABytes fieldValue]>
        (<["server" := AAddrs (ClientLocalAddr env client) (ClientRemoteAddr env client)]>
          (<["client" := AAddrs (ConnLocalAddr env gconn) (ConnRemoteAddr env gconn)]> ∅))) in
  match err with
  | ArgNil => data
  | ArgGatewayD _ => data
  | ArgError typedErr => <["error" := AString (Error_string typedErr)]> data
  | ArgString typedErr => <["error" := AString typedErr]> data
  | ArgOther printed => <["error" := AString printed]> data
  end.

Definition extractField (result : option HookMap) (fieldName : string)
    : option bytes * string :=
  match result with
  | None => (None, "")
  | Some result =>
      let data :=
        match result !! fieldName with
        | Some (ABytes fieldValue) => fieldValue
        | _ => None
        end in
      let err :=
        match result !! "error" with
        | Some (AString errMsg) => if bool_decide (errMsg ≠ "") then errMsg else ""
        | _ => ""
        end in
      (data, err)
  end.

(** ** The engine *)

Definition EmptyPoolCapacity : Z := 0.

Record ProxyImpl := mkProxy {
  availableConnections : Pool.t;
  busyConnections : Pool.t;
  Elastic : bool;
  ReuseElasticClients : bool;
  ClientConfig : option Client;          (* a [*Client], possibly nil *)
  trace : list Event                     (* ghost: the effects so far *)
}.

Definition NewProxy (p : Pool.t) (elastic reuseElasticClients : bool)
    (clientConfig : option Client) : ProxyImpl :=
  mkProxy p (Pool.NewPool EmptyPoolCapacity) elastic reuseElasticClients
    clientConfig [].

Definition set_available (pr : ProxyImpl) (p : Pool.t) : ProxyImpl :=
  mkProxy p (busyConnections pr) (Elastic pr) (ReuseElasticClients pr)
    (ClientConfig pr) (trace pr).

Definition set_busy (pr : ProxyImpl) (p : Pool.t) : ProxyImpl :=
  mkProxy (availableConnections pr) p (Elastic pr) (ReuseElasticClients pr)
    (ClientConfig pr) (trace pr).

Definition emit (ev : Event) (pr : ProxyImpl) : ProxyImpl :=
  mkProxy (availableConnections pr) (busyConnections pr) (Elastic pr)
    (ReuseElasticClients pr) (ClientConfig pr) (trace pr ++ [ev]).

(** [if err != nil { pr.logger.Error()...Msg(msg) }] *)
Definition log_if {A : Type} (err : option A) (msg : string) (pr : ProxyImpl)
    : ProxyImpl :=
  match err with
  | Some _ => emit (LogError msg) pr
  | None => pr
  end.

(** A call returns a value and leaves a state, or crashes (a nil
    dereference or a slice out of range, which nothing here recovers) after
    the effects it had until then. *)
Inductive Result (A : Type) :=
  | Returned (a : A) (pr : ProxyImpl)
  | Panicked (effects : list Event).
Arguments Returned {A} a pr.
Arguments Panicked {A} effects.

Definition IsExhausted (pr : ProxyImpl) : bool :=
  if Elastic pr then false
  else bool_decide (Pool.Size (availableConnections pr) = 0)
       && bool_decide (Pool.Cap (availableConnections pr) > 0).

Definition IsHealty (env : Env) (pr : ProxyImpl) (client : option Client)
    : Result (option Client * option GatewayDError) :=
  if IsExhausted pr then
    Returned (client, Some ErrPoolExhausted)
      (emit (LogError "No more available connections") pr)
  else
    match client with
    | Some c =>
        Returned (client, None)
          (if IsConnected env c then pr
           else emit (LogError "Client is disconnected") pr)
    | None =>
        match IsConnected_nil env with
        | Some connected =>
            Returned (client, None)
              (if connected then pr
               else emit (LogError "Client is disconnected") pr)
        | None => Panicked (trace pr)
        end
    end.

(** [client.ID[:7]] is in range. *)
Definition short_id_ok (c : Client) : bool :=
  bool_decide (7 ≤ String.length (ID c))%nat.

(** The visitor of [Connect]: remember the first string key and stop. *)
Definition first_string_key (key : Key) (_ : Value) (clientID : string)
    : string * bool :=
  match key with
  | KStr cid => (cid, false)
  | _ => (clientID, true)
  end.

(** Lines 101-133 of [Connect]: the liveness check and the binding. *)
Definition Connect_bind (env : Env) (pr : ProxyImpl) (gconn : Conn)
    (client : option Client) : Result (option GatewayDError) :=
  match IsHealty env pr client with
  | Panicked effects => Panicked effects
  | Returned (client, err) pr =>
      let pr := log_if err "Failed to connect to the client" pr in
      match client with
      | None =>
          (* [Put] stores the nil pointer; if it succeeds, [client.ID[:7]]
             in the next statement dereferences it *)
          if Pool.full (busyConnections pr)
          then Returned (Some (PutError env)) pr
          else Panicked (trace pr)
      | Some c =>
          match Pool.Put (PutError env) (busyConnections pr) (KConn gconn) (VClient c) with
          | (Some err, _) => Returned (Some err) pr
          | (None, busy) =>
              if short_id_ok c then Returned None (set_busy pr busy)
              else Panicked (trace pr)
          end
      end
  end.

(** Lines 66-74 of [Connect]: the key the iteration leaves in [clientID]. *)
Definition first_clientID (env : Env) (pr : ProxyImpl) : string :=
  Pool.ForEach (rank env) (availableConnections pr) first_string_key "".

Definition Connect (env : Env) (pr : ProxyImpl) (gconn : Conn)
    : Result (option GatewayDError) :=
  let clientID := first_clientID env pr in
  if IsExhausted pr then
    if Elastic pr then
      match ClientConfig pr with
      | None => Panicked (trace pr)
      | Some cfg =>
          let client :=
            NewClient env (Network cfg) (Address cfg) (ReceiveBufferSize cfg)
              (ReceiveChunkSize cfg) (ReceiveDeadline cfg) (SendDeadline cfg) in
          let pr := emit (Created client) pr in
          match client with
          | None => Panicked (trace pr)
          | Some c =>
              if short_id_ok c then Connect_bind env pr gconn client
              else Panicked (trace pr)
          end
      end
    else Returned (Some ErrPoolExhausted) pr
  else
    let '(popped, available) := Pool.Pop (availableConnections pr) (KStr clientID) in
    let client :=
      match popped with
      | Some (VClient cl) => Some cl
      | _ => None
      end in
    Connect_bind env (set_available pr available) gconn client.

Definition Disconnect (env : Env) (pr : ProxyImpl) (gconn : Conn)
    : Result (option GatewayDError) :=
  let '(client, busy) := Pool.Pop (busyConnections pr) (KConn gconn) in
  let pr := set_busy pr busy in
  match client with
  | Some (VClient client) =>
      if (Elastic pr && ReuseElasticClients pr) || negb (Elastic pr) then
        match IsHealty env pr (Some client) with
        | Panicked effects => Panicked effects
        | Returned (_, err) pr =>
            let pr := log_if err "Failed to reconnect to the client" pr in
            let '(err, available) :=
              Pool.Put (PutError env) (availableConnections pr)
                (KStr (ID client)) (VClient client) in
            Returned None
              (log_if err "Failed to put the client back in the pool"
                 (set_available pr available))
        end
      else Returned (Some ErrClientNotConnected) pr
  | Some (VOther _) => Returned (Some ErrCastFailed) pr
  | None => Returned (Some ErrClientNotFound) pr
  end.

(** Lines 285-321 of [PassThrough]: the egress hooks and the write back. *)
Definition PassThrough_reply (env : Env) (pr : ProxyImpl) (gconn : Conn)
    (client : Client) (received : Z) (response : option bytes)
    (err : option GatewayDError) : Result (option GatewayDError) :=
  match slice_to response received with
  | None => Panicked (trace pr)
  | Some fieldValue =>
      let payload :=
        trafficData env gconn client "response" fieldValue (ArgGatewayD err) in
      let '(result, err) := Run env payload OnEgressTraffic in
      let pr := emit (HookRun OnEgressTraffic payload) pr in
      let pr := log_if err "Error running hook" pr in
      let '(modResponse, errMsg) := extractField result "response" in
      let pr :=
        if bool_decide (errMsg ≠ "") then emit (LogError "Error in hook") pr
        else pr in
      let '(response, received) :=
        match modResponse with
        | Some modResponse => (Some modResponse, Z.of_nat (length modResponse))
        | None => (response, received)
        end in
      match slice_to response received with
      | None => Panicked (trace pr)
      | Some out =>
          let origErr := AsyncWrite env gconn out in
          let pr := emit (WriteSubmitted gconn out) pr in
          match origErr with
          | Some _ =>
              (* the error that is logged and wrapped is [err], the result
                 of the egress hooks, not [origErr] *)
              Returned (Some (Wrap ErrServerSendFailed (as_error <$> err)))
                (emit (LogError "Error writing to client") pr)
          | None => Returned None pr
          end
      end
  end.

(** The test of line 260. *)
Definition backend_closed (received : Z) (err : option GatewayDError) : bool :=
  bool_decide (received = 0) &&
  match err with
  | Some err => errors_Is_EOF (Unwrap err)
  | None => false
  end.

(** Lines 258-283 of [PassThrough]: replace a backend that has closed. *)
Definition PassThrough_reconnect (env : Env) (pr : ProxyImpl) (gconn : Conn)
    (client : Client) (received : Z) (response : option bytes)
    (err : option GatewayDError) : Result (option GatewayDError) :=
  if backend_closed received err then
    let pr := emit (ClientClosed client) pr in
    match ClientConfig pr with
    | None => Panicked (trace pr)
    | Some cfg =>
        let client :=
          NewClient env (Network cfg) (Address cfg) (ReceiveBufferSize cfg)
            (ReceiveChunkSize cfg) (ReceiveDeadline cfg) (SendDeadline cfg) in
        let pr := emit (Created client) pr in
        let pr := set_busy pr (Pool.Remove (busyConnections pr) (KConn gconn)) in
        match client with
        | None =>
            (* [Put] stores the nil pointer; if it succeeds, [trafficData]
               dereferences it *)
            if Pool.full (busyConnections pr)
            then Returned (Some (PutError env)) pr
            else Panicked (trace pr)
        | Some c =>
            match Pool.Put (PutError env) (busyConnections pr) (KConn gconn) (VClient c) with
            | (Some err, _) => Returned (Some err) pr
            | (None, busy) =>
                PassThrough_reply env (set_busy pr busy) gconn c received response err
            end
        end
    end
  else PassThrough_reply env pr gconn client received response err.

Definition PassThrough (env : Env) (pr : ProxyImpl) (gconn : Conn)
    : Result (option GatewayDError) :=
  match Pool.Get (busyConnections pr) (KConn gconn) with
  | None => Returned (Some ErrClientNotFound) pr
  | Some (VOther _) => Returned (Some ErrCastFailed) pr
  | Some (VClient client) =>
      let '(request, origErr) := Next env gconn in
      let pr := log_if origErr "Error reading from client" pr in
      let payload :=
        trafficData env gconn client "request" request (arg_of_error origErr) in
      let '(result, err) := Run env payload OnIngressTraffic in
      let pr := emit (HookRun OnIngressTraffic payload) pr in
      let pr := log_if err "Error running hook" pr in
      let '(modRequest, errMsg) := extractField result "request" in
      let pr :=
        if bool_decide (errMsg ≠ "") then emit (LogError "Error in hook") pr
        else pr in
      let request :=
        match modRequest with
        | Some modRequest => Some modRequest
        | None => request
        end in
      let '(sent, err) := Send env client request in
      let pr := emit (Sent client request) pr in
      let pr := log_if err "Error sending request to database" pr in
      let '(received, response, err) := Receive env client in
      let pr := emit (ReceiveCalled client) pr in
      PassThrough_reconnect env pr gconn client received response err
  end.

(** The visitors of [Shutdown]. *)
Definition close_available (_ : Key) (value : Value) (pr : ProxyImpl)
    : ProxyImpl * bool :=
  (match value with
   | VClient cl => emit (ClientClosed cl) pr
   | VOther _ => pr
   end, true).

Definition close_busy (key : Key) (value : Value) (pr : ProxyImpl)
    : ProxyImpl * bool :=
  let pr :=
    match key with
    | KConn gconn => emit (ConnClosed gconn) pr
    | _ => pr
    end in
  (match value with
   | VClient cl => emit (ClientClosed cl) pr
   | VOther _ => pr
   end, true).

Definition Shutdown (env : Env) (pr : ProxyImpl) : ProxyImpl :=
  let pr := Pool.ForEach (rank env) (availableConnections pr) close_available pr in
  let pr := set_available pr (Pool.Clear (availableConnections pr)) in
  let pr := Pool.ForEach (rank env) (busyConnections pr) close_busy pr in
  set_busy pr (Pool.Clear (busyConnections pr)).

(** The effects of a call, and those it added to the state it started in. *)
Definition effects_of {A : Type} (r : Result A) : list Event :=
  match r with
  | Returned _ pr => trace pr
  | Panicked effects => effects
  end.

Definition new_events {A : Type} (pr : ProxyImpl) (r : Result A) : list Event :=
  drop (length (trace pr)) (effects_of r).

(** ** Sequences of calls *)

Inductive Call :=
  | CallConnect (gconn : Conn)
  | CallDisconnect (gconn : Conn).

Definition call (env : Env) (pr : ProxyImpl) (c : Call)
    : Result (option GatewayDError) :=
  match c with
  | CallConnect gconn => Connect env pr gconn
  | CallDisconnect gconn => Disconnect env pr gconn
  end.

(** One call after the other, each with the answers the outside gives at
    that time; [None] when a call crashes. *)
Fixpoint run (calls : list (Env * Call)) (pr : ProxyImpl) : option ProxyImpl :=
  match calls with
  | [] => Some pr
  | (env, c) :: rest =>
      match call env pr c with
      | Returned _ pr => run rest pr
      | Panicked _ => None
      end
  end.

(** Backends created and closed so far. *)
Definition is_created (ev : Event) : bool :=
  match ev with Created (Some _) => true | _ => false end.

Definition is_client_closed (ev : Event) : bool :=
  match ev with ClientClosed _ => true | _ => false end.

Definition count_events (f : Event → bool) (t : list Event) : Z :=
  Z.of_nat (length (List.filter f t)).

Definition created (pr : ProxyImpl) : Z := count_events is_created (trace pr).
Definition closed (pr : ProxyImpl) : Z := count_events is_client_closed (trace pr).

Definition balanced (pr : ProxyImpl) : Prop :=
  Pool.Size (availableConnections pr) + Pool.Size (busyConnections pr)
  = created pr - closed pr.

(** The request the backend is sent: the replacement of the ingress hooks
    if they give one, else what was read. *)
Definition request_sent (env : Env) (g : Conn) (client : Client)
    : option bytes :=
  let read := Next env g in
  let payload :=
    trafficData env g client "request" read.1 (arg_of_error read.2) in
  match (extractField (Run env payload OnIngressTraffic).1 "request").1 with
  | Some modRequest => Some modRequest
  | None => read.1
  end.

(** The engine after further effects, and the effects that are log lines. *)
Definition add_events (pr : ProxyImpl) (evs : list Event) : ProxyImpl :=
  mkProxy (availableConnections pr) (busyConnections pr) (Elastic pr)
    (ReuseElasticClients pr) (ClientConfig pr) (trace pr ++ evs).

Definition is_log (ev : Event) : bool :=
  match ev with LogError _ => true | _ => false end.

Abbreviation only_logs := (Forall (λ ev, is_log ev = true)).

(** The replacement a hook result holds for a field, if any, else the
    slice at hand. *)
Definition superseded (result : option HookMap) (fieldName : string)
    (original : option bytes) : option bytes :=
  match (extractField result fieldName).1 with
  | Some replacement => Some replacement
  | None => original
  end.

(** The events of the first half of [PassThrough], up to the receive. *)
Definition ingress_shape (env : Env) (g : Conn) (client : Client)
    (evs : list Event) : Prop :=
  ∃ logs0 logs1 logs2,
    only_logs logs0 ∧ only_logs logs1 ∧ only_logs logs2 ∧
    evs = logs0
          ++ [HookRun OnIngressTraffic
                (trafficData env g client "request" (Next env g).1
                   (arg_of_error (Next env g).2))]
          ++ logs1 ++ [Sent client (request_sent env g client)]
          ++ logs2 ++ [ReceiveCalled client].

(** The events of a replacement of the backend. *)
Definition is_lifecycle (ev : Event) : bool :=
  match ev with ClientClosed _ | Created _ => true | _ => false end.

(** The events of the second half: none when the call stopped before the
    egress hooks, else one run of the hooks on the sliced response and one
    write of what they leave. *)
Definition egress_shape (env : Env) (g : Conn) (err : option GatewayDError)
    (evs : list Event) : Prop :=
  evs = [] ∨
  ∃ c body logs1 logs2,
    only_logs logs1 ∧ only_logs logs2 ∧
    let payload := trafficData env g c "response" body (ArgGatewayD err) in
    evs = [HookRun OnEgressTraffic payload] ++ logs1
          ++ [WriteSubmitted g
                (superseded (Run env payload OnEgressTraffic).1 "response" body)]
          ++ logs2.

(** ** The invariants of the data model *)

(** The available pool, when it is bounded, has room for the backends of
    both pools: none was put in the pools beyond its capacity. *)
Definition has_room (pr : ProxyImpl) : Prop :=
  Pool.Cap (availableConnections pr) <= 0
  ∨ Pool.Size (availableConnections pr) + Pool.Size (busyConnections pr)
    <= Pool.Cap (availableConnections pr).

(** The busy pool is the unbounded one of [NewProxy]; the available pool
    holds backend clients under their identifiers; the busy pool holds
    backend clients that are not also available, no two with the same
    identifier; and the available pool, when it is bounded, has room for
    every backend of the two pools. *)
Definition well_formed (pr : ProxyImpl) : Prop :=
  Pool.Cap (busyConnections pr) = EmptyPoolCapacity
  ∧ (∀ k v, Pool.entries (availableConnections pr) !! k = Some v →
            ∃ c, k = KStr (ID c) ∧ v = VClient c)
  ∧ (∀ k v, Pool.entries (busyConnections pr) !! k = Some v →
            ∃ c, v = VClient c
                 ∧ Pool.entries (availableConnections pr) !! KStr (ID c) = None)
  ∧ (∀ k1 k2 c1 c2,
       Pool.entries (busyConnections pr) !! k1 = Some (VClient c1) →
       Pool.entries (busyConnections pr) !! k2 = Some (VClient c2) →
       ID c1 = ID c2 → k1 = k2)
  ∧ (Pool.Cap (availableConnections pr) <= 0
     ∨ Pool.Size (availableConnections pr) + Pool.Size (busyConnections pr)
       <= Pool.Cap (availableConnections pr)).

(** [Connect] is called only for inbound connections that are not bound
    at that time (the UNBOUND to BOUND transition). *)
Fixpoint orderly (calls : list (Env * Call)) (pr : ProxyImpl) : Prop :=
  match calls with
  | [] => True
  | (env, c) :: rest =>
      match c with
      | CallConnect gconn =>
          Pool.entries (busyConnections pr) !! KConn gconn = None
      | CallDisconnect _ => True
      end
      ∧ match call env pr c with
        | Returned _ pr' => orderly rest pr'
        | Panicked _ => True
        end
  end.

(** What a call keeps. *)
Definition kept (pr pr' : ProxyImpl) : Prop :=
  well_formed pr'
  ∧ Elastic pr' = Elastic pr
  ∧ ReuseElasticClients pr' = ReuseElasticClients pr
  ∧ Pool.Size (availableConnections pr') + Pool.Size (busyConnections pr')
    = Pool.Size (availableConnections pr) + Pool.Size (busyConnections pr)
  ∧ created pr' = created pr
  ∧ closed pr' = closed pr.


(** ** Example collaborators and states *)

Module Ex.

Definition quiet : Env := {|
  rank := λ _, 0%nat;
  PutError := mkGatewayDError (OtherCode 1) None;
  IsConnected := λ _, true;
  IsConnected_nil := Some false;
  NewClient := λ network address rbs rcs rd sd,
    Some (mkClient "9f86d081884c7d65" network address rbs rcs rd sd);
  Next := λ _, (Some [x68; x69]%byte, None);
  ConnLocalAddr := λ _, "127.0.0.1:15432";
  ConnRemoteAddr := λ _, "127.0.0.1:50000";
  AsyncWrite := λ _ _, None;
  ClientLocalAddr := λ _, "127.0.0.1:50001";
  ClientRemoteAddr := λ _, "127.0.0.1:5432";
  Send := λ _ data, (len data, None);
  Receive := λ _, (2, Some [x6f; x6b]%byte, None);
  Run := λ _ _, (None, None)
|}.

(** [quiet] with other answers from the hooks, the backend, the inbound
    write and the dial of a new backend. *)
Definition scripted
    (run : HookMap → HookType → option HookMap * option GatewayDError)
    (receive : Client → Z * option bytes * option GatewayDError)
    (asyncWrite : Conn → option bytes → option GoError)
    (newClient : string → string → Z → Z → Z → Z → option Client) : Env :=
  mkEnv (rank quiet) (PutError quiet) (IsConnected quiet)
    (IsConnected_nil quiet) newClient (Next quiet) (ConnLocalAddr quiet)
    (ConnRemoteAddr quiet) asyncWrite (ClientLocalAddr quiet)
    (ClientRemoteAddr quiet) (Send quiet) receive run.

(** The egress hooks fail and the write to the inbound connection is
    refused. *)
Definition hookErr : GatewayDError := mkGatewayDError (OtherCode 2) None.
Definition writeErr : GoError := ErrorString "broken pipe".

Definition failing_write : Env :=
  scripted
    (λ _ h, match h with
            | OnEgressTraffic => (None, Some hookErr)
            | OnIngressTraffic => (None, None)
            end)
    (Receive quiet) (λ _ _, Some writeErr) (NewClient quiet).

(** The backend has closed: nothing received, not even a buffer, and an
    error that unwraps to [io.EOF]. *)
Definition receiveErr : GatewayDError :=
  mkGatewayDError (OtherCode 3) (Some io_EOF).

Definition backend_gone : Env :=
  scripted (Run quiet) (λ _, (0, None, Some receiveErr)) (AsyncWrite quiet)
    (NewClient quiet).

(** The backend has closed and cannot be dialled again: [NewClient] gives
    nil. *)
Definition backend_lost : Env :=
  scripted (Run quiet) (Receive backend_gone) (AsyncWrite quiet)
    (λ _ _ _ _ _ _, None).

(** The hooks replace the request and the response. *)
Definition newRequest : bytes := [x53; x45; x4c]%byte.
Definition newResponse : bytes := [x6e; x6f]%byte.

Definition rewriting : Env :=
  scripted
    (λ _ h, match h with
            | OnIngressTraffic =>
                (Some {[ "request" := ABytes (Some newRequest) ]}, None)
            | OnEgressTraffic =>
                (Some {[ "response" := ABytes (Some newResponse) ]}, None)
            end)
    (Receive quiet) (AsyncWrite quiet) (NewClient quiet).

Definition template : Client :=
  mkClient "" "tcp" "localhost:5432" 4096 4096 0 0.

Definition backend1 : Client :=
  mkClient "60303ae22b998861" "tcp" "localhost:5432" 4096 4096 0 0.

Definition backend2 : Client :=
  mkClient "fd61a03af4f77d87" "tcp" "localhost:5432" 4096 4096 0 0.

(** A pool of the given capacity holding [backend1] under its identifier. *)
Definition pool1 (capacity : Z) : Pool.t :=
  Pool.mk capacity {[ KStr (ID backend1) := VClient backend1 ]}.

(** An engine over [pool1], with [backend1] on record as created. *)
Definition engine1 (capacity : Z) (elastic reuse : bool) : ProxyImpl :=
  mkProxy (pool1 capacity) (Pool.NewPool EmptyPoolCapacity) elastic reuse
    (Some template) [Created (Some backend1)].

(** An engine whose available pool is empty. *)
Definition engine0 (capacity : Z) (elastic reuse : bool) : ProxyImpl :=
  NewProxy (Pool.NewPool capacity) elastic reuse (Some template).

(** An engine with inbound connection 7 bound to [backend1]. *)
Definition bound1 (capacity : Z) (elastic reuse : bool) : ProxyImpl :=
  mkProxy (Pool.NewPool capacity)
    (Pool.mk EmptyPoolCapacity {[ KConn 7%nat := VClient backend1 ]})
    elastic reuse (Some template) [Created (Some backend1)].

End Ex.

(** ** network/utils.go: [Resolve] and [GetID] *)

(** Error kinds of package errors that the engine does not return. *)
Definition ErrResolveFailed := mkGatewayDError (OtherCode 101) None.
Definition ErrNetworkNotSupported := mkGatewayDError (OtherCode 102) None.

(** The resolvers of package net: [addr.String()] of the resolved address,
    or the error. *)
Record Resolvers := mkResolvers {
  ResolveTCPAddr : string → string → string + GoError;
  ResolveUDPAddr : string → string → string + GoError;
  ResolveUnixAddr : string → string → string + GoError
}.

(** The family a network name belongs to in the [switch] of [Resolve]. *)
Inductive Family := TCP | UDP | Unix | Unsupported.

Definition family_of (network : string) : Family :=
  if bool_decide (network = "tcp") || bool_decide (network = "tcp4")
     || bool_decide (network = "tcp6") then TCP
  else if bool_decide (network = "udp") || bool_decide (network = "udp4")
          || bool_decide (network = "udp6") then UDP
  else if bool_decide (network = "unix") || bool_decide (network = "unixgram")
          || bool_decide (network = "unixpacket") then Unix
  else Unsupported.

(** One [case] of [Resolve]. *)
Definition resolved (r : string + GoError)
    : string * option GatewayDError * list Event :=
  match r with
  | inl addr => (addr, None, [])
  | inr err => ("", Some (Wrap ErrResolveFailed (Some err)), [])
  end.

Definition Resolve (net : Resolvers) (network address : string)
    : string * option GatewayDError * list Event :=
  match family_of network with
  | TCP => resolved (ResolveTCPAddr net network address)
  | UDP => resolved (ResolveUDPAddr net network address)
  | Unix => resolved (ResolveUnixAddr net network address)
  | Unsupported =>
      ("", Some ErrNetworkNotSupported, [LogError "Network is not supported"])
  end.

(** [hex.EncodeToString]: two lower-case digits per byte. *)
Definition hex_digit (n : nat) : Ascii.ascii :=
  match String.get n "0123456789abcdef" with
  | Some d => d
  | None => Ascii.ascii_of_nat 48
  end.

Fixpoint hex_EncodeToString (src : bytes) : string :=
  match src with
  | [] => ""
  | b :: rest =>
      String (hex_digit (Byte.to_nat b / 16))
        (String (hex_digit (Byte.to_nat b mod 16)) (hex_EncodeToString rest))
  end.

(** [fmt.Sprintf("%d", seed)]. *)
Definition decimal (seed : Z) : string :=
  NilZero.string_of_int (Z.to_int seed).

(** [GetID]; [sum256] is the SHA-256 digest of the bytes of a string.  The
    write into the hash does not fail. *)
Definition GetID (sum256 : string → bytes) (network address : string)
    (seed : Z) : string :=
  hex_EncodeToString
    (sum256 (network +:+ "://" +:+ address +:+ decimal seed)).

(** A lower-case hexadecimal digit. *)
Definition is_hex (a : Ascii.ascii) : bool :=
  bool_decide (a ∈ String.list_ascii_of_string "0123456789abcdef").

(** The events of a call that are not log lines, in order. *)
Definition without_logs (evs : list Event) : list Event :=
  List.filter (λ ev, negb (is_log ev)) evs.

(** The identifiers of the backends of the available pool all have the
    seven bytes that [Connect] takes. *)
Definition long_ids (pr : ProxyImpl) : Prop :=
  ∀ k c, Pool.entries (availableConnections pr) !! k = Some (VClient c) →
         short_id_ok c = true.

(** Every value of the two pools is a backend client. *)
Definition only_clients (pr : ProxyImpl) : Prop :=
  ∀ k v,
    Pool.entries (availableConnections pr) !! k = Some v
    ∨ Pool.entries (busyConnections pr) !! k = Some v →
    ∃ c, v = VClient c.

(** One [Connect] per inbound connection of a list. *)
Definition connect_all (envs : list (Env * Conn)) : list (Env * Call) :=
  (λ eg, (eg.1, CallConnect eg.2)) <$> envs.

(** ** cmd/run.go: the population of the pool *)

(** One turn of the loop that fills the pool: [dial i] is what [NewClient]
    gives in turn [i], nil or a client; a client is put in the pool under
    its identifier and the result of [Put] is dropped.  The notification of
    the hooks and the log lines do not touch the pool and are left out. *)
Definition populate_step (env : Env) (dial : nat → option Client)
    (acc : Pool.t * list Event) (i : nat) : Pool.t * list Event :=
  let client := dial i in
  match client with
  | Some c =>
      ((Pool.Put (PutError env) acc.1 (KStr (ID c)) (VClient c)).2,
       acc.2 ++ [Created client])
  | None => (acc.1, acc.2 ++ [Created client])
  end.

(** [for i := 0; i < poolSize; i++ { ... }] on a new pool. *)
Definition populate (env : Env) (capacity : Z) (dial : nat → option Client)
    (poolSize : Z) : Pool.t * list Event :=
  foldl (populate_step env dial) (Pool.NewPool capacity, [])
    (seq 0 (Z.to_nat poolSize)).

(** The check after the loop: [false] is the branch that logs and calls
    [os.Exit(1)]. *)
Definition pool_is_populated (p : Pool.t) (poolSize : Z) : bool :=
  bool_decide (Pool.Size p = poolSize).

(** Every turn below [n] gave a client, and no two of them gave clients
    with the same identifier. *)
Definition all_dialled (dial : nat → option Client) (n : nat) : Prop :=
  (∀ i, (i < n)%nat → is_Some (dial i))
  ∧ (∀ i j c1 c2, (i < n)%nat → (j < n)%nat →
       dial i = Some c1 → dial j = Some c2 → ID c1 = ID c2 → i = j).

(** ** cmd/config_init.go: the init command *)

(** What the command did: the file it wrote, if it got that far, and how it
    ended, with [logger.Fatal] or with the message on the verb. *)
Inductive InitEnd :=
  | InitFatal (msg : string)
  | InitPrinted (verb : string).

Record InitOutcome := mkInitOutcome {
  written : option bytes;
  ended : InitEnd
}.

(** The [Run] function of [initCmd]: [marshalled] is the result of
    marshalling the defaults, [stat_ok] tells that [os.Stat] of the config
    file gave no error, [write_err] is the result of [os.WriteFile]. *)
Definition init_run (force : bool) (marshalled : bytes + GoError)
    (stat_ok : bool) (write_err : option GoError) : InitOutcome :=
  match marshalled with
  | inr err => mkInitOutcome None (InitFatal (Error_string err))
  | inl globalCfg =>
      if stat_ok && negb force then
        mkInitOutcome None
          (InitFatal "Config file already exists. Use --force to overwrite.")
      else
        let exists_ := stat_ok in
        match write_err with
        | Some err => mkInitOutcome (Some globalCfg) (InitFatal (Error_string err))
        | None =>
            let verb := if exists_ && force then "overwritten" else "created" in
            mkInitOutcome (Some globalCfg) (InitPrinted verb)
        end
  end.

Example Connect_engine1 :
  Connect Ex.quiet (Ex.engine1 1 false false) 7%nat
  = Returned None
      (mkProxy (Pool.mk 1 ∅)
         (Pool.mk 0 {[ KConn 7%nat := VClient Ex.backend1 ]}) false false
         (Some Ex.template)
         [Created (Some Ex.backend1); LogError "No more available connections";
          LogError "Failed to connect to the client"]).
Proof. vm_compute. reflexivity. Qed.

(** ** Facts about the pool *)

Lemma full_unbounded (p : Pool.t) :
  Pool.Cap p = EmptyPoolCapacity → Pool.full p = false.
Proof.
  unfold Pool.full, Pool.Cap, EmptyPoolCapacity. intros ->.
  reflexivity.
Qed.

Lemma Put_unbounded perr (p : Pool.t) k v :
  Pool.Cap p = EmptyPoolCapacity →
  Pool.Put perr p k v = (None, Pool.mk (Pool.cap p) (<[k := v]> (Pool.entries p))).
Proof.
  intros H. unfold Pool.Put. rewrite (full_unbounded p H). reflexivity.
Qed.

Lemma Size_nonneg (p : Pool.t) : 0 <= Pool.Size p.
Proof. unfold Pool.Size. lia. Qed.

Lemma Size_zero_empty (p : Pool.t) : Pool.Size p = 0 ↔ Pool.entries p = ∅.
Proof.
  unfold Pool.Size. split.
  - intros H. apply map_size_empty_iff. lia.
  - intros ->. rewrite map_size_empty. reflexivity.
Qed.

(** ** Facts about the engine *)

Lemma Returned_inj {A} (a a' : A) pr pr' :
  Returned a pr = Returned a' pr' → a = a' ∧ pr = pr'.
Proof. by intros [= -> ->]. Qed.

Lemma IsExhausted_true (pr : ProxyImpl) :
  IsExhausted pr = true ↔
  Elastic pr = false ∧ Pool.Size (availableConnections pr) = 0
  ∧ Pool.Cap (availableConnections pr) > 0.
Proof.
  unfold IsExhausted. destruct (Elastic pr).
  - split; [discriminate | intros [? _]; discriminate].
  - rewrite andb_true_iff, !bool_decide_eq_true. tauto.
Qed.

Lemma IsExhausted_false (pr : ProxyImpl) :
  IsExhausted pr = false ↔
  Elastic pr = true ∨ Pool.Size (availableConnections pr) ≠ 0
  ∨ Pool.Cap (availableConnections pr) <= 0.
Proof.
  unfold IsExhausted. destruct (Elastic pr).
  - split; [auto | reflexivity].
  - rewrite andb_false_iff, !bool_decide_eq_false.
    split; [intros [?|?]; [auto | right; right; lia] |].
    intros [?|[?|?]]; [discriminate | auto | right; lia].
Qed.

(** [IsHealty] on a client: it always returns, hands the client back, and
    only adds log lines. *)
Lemma IsHealty_client env pr c :
  ∃ logs,
    IsHealty env pr (Some c)
    = Returned (Some c, if IsExhausted pr then Some ErrPoolExhausted else None)
        (mkProxy (availableConnections pr) (busyConnections pr) (Elastic pr)
           (ReuseElasticClients pr) (ClientConfig pr) (trace pr ++ logs))
    ∧ only_logs logs.
Proof.
  unfold IsHealty. destruct (IsExhausted pr).
  - eexists [_]. split; [reflexivity |]. by repeat constructor.
  - destruct (IsConnected env c).
    + exists []. rewrite app_nil_r. split; [by destruct pr | constructor].
    + eexists [_]. split; [reflexivity |]. by repeat constructor.
Qed.

(** With the unbounded busy pool of [NewProxy], binding a nil client
    crashes. *)
Lemma Connect_bind_nil env pr gconn :
  Pool.Cap (busyConnections pr) = EmptyPoolCapacity →
  ∃ effects, Connect_bind env pr gconn None = Panicked effects.
Proof.
  intros Hbusy. unfold Connect_bind, IsHealty.
  destruct (IsExhausted pr); simpl.
  - rewrite full_unbounded by exact Hbusy. eauto.
  - destruct (IsConnected_nil env) as [[]|]; simpl;
      rewrite ?full_unbounded by exact Hbusy; eauto.
Qed.

(** Binding a client into the unbounded busy pool: success, or a crash on
    a short identifier; never an error. *)
Lemma Connect_bind_client env pr gconn c :
  Pool.Cap (busyConnections pr) = EmptyPoolCapacity →
  ∃ logs,
    only_logs logs ∧
    Connect_bind env pr gconn (Some c)
    = if short_id_ok c
      then Returned None
             (mkProxy (availableConnections pr)
                (Pool.mk (Pool.cap (busyConnections pr))
                   (<[KConn gconn := VClient c]> (Pool.entries (busyConnections pr))))
                (Elastic pr) (ReuseElasticClients pr) (ClientConfig pr)
                (trace pr ++ logs))
      else Panicked (trace pr ++ logs).
Proof.
  intros Hbusy. unfold Connect_bind.
  destruct (IsHealty_client env pr c) as (logs & -> & Hlogs).
  destruct (IsExhausted pr); simpl.
  - exists (logs ++ [LogError "Failed to connect to the client"]).
    split; [apply Forall_app; split; [done | by repeat constructor] |].
    rewrite Put_unbounded by exact Hbusy. simpl.
    rewrite app_assoc. reflexivity.
  - exists logs. split; [done |].
    rewrite Put_unbounded by exact Hbusy. reflexivity.
Qed.

(** Binding a backend with a long enough identifier into the unbounded
    busy pool: what the liveness check logs, and nothing else. *)
Lemma Connect_bind_trace env pr gconn c :
  Pool.Cap (busyConnections pr) = EmptyPoolCapacity →
  short_id_ok c = true →
  Connect_bind env pr gconn (Some c)
  = Returned None
      (mkProxy (availableConnections pr)
         (Pool.mk (Pool.cap (busyConnections pr))
            (<[KConn gconn := VClient c]> (Pool.entries (busyConnections pr))))
         (Elastic pr) (ReuseElasticClients pr) (ClientConfig pr)
         (trace pr
          ++ if IsExhausted pr
             then [LogError "No more available connections";
                   LogError "Failed to connect to the client"]
             else if IsConnected env c then []
                  else [LogError "Client is disconnected"])).
Proof.
  intros Hbusy Hid. unfold Connect_bind, IsHealty.
  destruct (IsExhausted pr).
  - cbn [log_if emit trace busyConnections availableConnections Elastic
         ReuseElasticClients ClientConfig].
    rewrite Put_unbounded by exact Hbusy. rewrite Hid.
    unfold set_busy. cbn. by rewrite <- app_assoc.
  - destruct (IsConnected env c); cbn [log_if];
      rewrite Put_unbounded by exact Hbusy; rewrite Hid; unfold set_busy; cbn;
      [by rewrite app_nil_r | reflexivity].
Qed.

(** When the pool is not exhausted, [Connect] is the pop followed by the
    binding. *)
Lemma Connect_not_exhausted env pr gconn :
  IsExhausted pr = false →
  Connect env pr gconn
  = Connect_bind env
      (set_available pr
         (Pool.mk (Pool.cap (availableConnections pr))
            (delete (KStr (first_clientID env pr))
               (Pool.entries (availableConnections pr)))))
      gconn
      match Pool.entries (availableConnections pr) !! KStr (first_clientID env pr) with
      | Some (VClient cl) => Some cl
      | _ => None
      end.
Proof. intros H. unfold Connect. rewrite H. reflexivity. Qed.

(** With the busy pool of [NewProxy], the only error [Connect] returns is
    the refusal on an exhausted pool, and it leaves the state as it was. *)
Lemma Connect_error env pr gconn e pr' :
  Pool.Cap (busyConnections pr) = EmptyPoolCapacity →
  Connect env pr gconn = Returned (Some e) pr' →
  IsExhausted pr = true ∧ e = ErrPoolExhausted ∧ pr' = pr.
Proof.
  intros Hbusy H. destruct (IsExhausted pr) eqn:Hex.
  - apply IsExhausted_true in Hex as Hex'. destruct Hex' as (Hel & _).
    unfold Connect in H. rewrite Hex, Hel in H. by inversion H.
  - rewrite Connect_not_exhausted in H by exact Hex.
    destruct (Pool.entries (availableConnections pr) !! _) as [[c|]|].
    + match type of H with Connect_bind ?e ?p ?g _ = _ =>
        destruct (Connect_bind_client e p g c Hbusy) as (logs & _ & Hb) end.
      rewrite Hb in H. by destruct (short_id_ok c).
    + match type of H with Connect_bind ?e ?p ?g _ = _ =>
        destruct (Connect_bind_nil e p g Hbusy) as (eff & Hb) end.
      by rewrite Hb in H.
    + match type of H with Connect_bind ?e ?p ?g _ = _ =>
        destruct (Connect_bind_nil e p g Hbusy) as (eff & Hb) end.
      by rewrite Hb in H.
Qed.

(** ** The claims *)

(** C3. [IsExhausted] is false whenever the engine is elastic and whenever
    the available pool has capacity 0; it is true exactly when the engine is
    not elastic and the available pool has size 0 and a positive capacity.
    In non-elastic mode [Connect] returns the pool-exhausted error exactly
    in that case, and then leaves the engine, its busy pool included, as it
    was.  The busy pool is the unbounded one [NewProxy] creates. *)
Theorem C3_exhausted_pool_refuses env pr gconn
    (Hbusy : Pool.Cap (busyConnections pr) = EmptyPoolCapacity) :
  (Elastic pr = true → IsExhausted pr = false)
  ∧ (Pool.Cap (availableConnections pr) = 0 → IsExhausted pr = false)
  ∧ (IsExhausted pr = true ↔
       Elastic pr = false ∧ Pool.Size (availableConnections pr) = 0
       ∧ Pool.Cap (availableConnections pr) > 0)
  ∧ (Elastic pr = false →
       ((∃ e pr', Connect env pr gconn = Returned (Some e) pr'
                  ∧ Code e = PoolExhausted)
        ↔ Pool.Size (availableConnections pr) = 0
          ∧ Pool.Cap (availableConnections pr) > 0)
       ∧ (Pool.Size (availableConnections pr) = 0
          ∧ Pool.Cap (availableConnections pr) > 0 →
          Connect env pr gconn = Returned (Some ErrPoolExhausted) pr)).
Proof.
  split; [| split; [| split]].
  - intros H. apply IsExhausted_false. auto.
  - intros H. apply IsExhausted_false. right; right. lia.
  - apply IsExhausted_true.
  - intros Hel.
    assert (Hrefuse : Pool.Size (availableConnections pr) = 0
                      ∧ Pool.Cap (availableConnections pr) > 0 →
                      Connect env pr gconn = Returned (Some ErrPoolExhausted) pr).
    { intros Hex.
      assert (IsExhausted pr = true) as Hx by (apply IsExhausted_true; tauto).
      unfold Connect. rewrite Hx, Hel. reflexivity. }
    split; [split |]; [| | exact Hrefuse].
    + intros (e & pr' & H & _).
      apply Connect_error in H as (Hx & _); [| exact Hbusy].
      apply IsExhausted_true in Hx. tauto.
    + intros Hex. exists ErrPoolExhausted, pr. split; [auto | reflexivity].
Qed.

Lemma C3_exhausted_pool_refuses_witness :
  Connect Ex.quiet (Ex.engine0 1 false false) 7%nat
  = Returned (Some ErrPoolExhausted) (Ex.engine0 1 false false).
Proof.
  apply (C3_exhausted_pool_refuses Ex.quiet (Ex.engine0 1 false false) 7%nat).
  - reflexivity.
  - reflexivity.
  - split; [reflexivity | reflexivity].
Defined.

(** C8. [IsHealty] hands back the client it was given, whatever it
    returns; its error is non-nil exactly when the engine is not elastic and
    the available pool is empty with a positive capacity, and is then the
    pool-exhausted error, logged as "No more available connections".  On a
    backend client it always returns; when the pool is not exhausted it
    asks the backend whether it is connected, and a backend that is not is
    logged as "Client is disconnected" and nothing more: the error stays
    nil.  Hence a [Connect] that pops backend [c] from the pool binds it to
    the inbound connection and returns nil, whatever the liveness check
    said: all that a failed check leaves is its log lines. *)
Theorem C8_liveness_check_never_aborts env pr gconn c
    (Hbusy : Pool.Cap (busyConnections pr) = EmptyPoolCapacity)
    (Hnot : IsExhausted pr = false)
    (Hpop : Pool.entries (availableConnections pr) !! KStr (first_clientID env pr)
            = Some (VClient c))
    (Hid : short_id_ok c = true) :
  (∀ pr0 client r pr1,
     IsHealty env pr0 client = Returned r pr1 →
     r.1 = client
     ∧ (is_Some r.2 ↔
          Elastic pr0 = false ∧ Pool.Size (availableConnections pr0) = 0
          ∧ Pool.Cap (availableConnections pr0) > 0)
     ∧ (∀ e, r.2 = Some e →
             e = ErrPoolExhausted
             ∧ trace pr1 = trace pr0 ++ [LogError "No more available connections"])
     ∧ availableConnections pr1 = availableConnections pr0
     ∧ busyConnections pr1 = busyConnections pr0)
  ∧ (∀ pr0 cl,
       ∃ err pr1,
         IsHealty env pr0 (Some cl) = Returned (Some cl, err) pr1
         ∧ (err = None →
            trace pr1
            = trace pr0 ++ if IsConnected env cl then []
                           else [LogError "Client is disconnected"]))
  ∧ (∃ pr',
       Connect env pr gconn = Returned None pr'
       ∧ Pool.entries (busyConnections pr')
         = <[KConn gconn := VClient c]> (Pool.entries (busyConnections pr))
       ∧ Pool.entries (availableConnections pr')
         = delete (KStr (first_clientID env pr))
             (Pool.entries (availableConnections pr))
       ∧ drop (length (trace pr)) (trace pr')
         = if IsExhausted pr'
           then [LogError "No more available connections";
                 LogError "Failed to connect to the client"]
           else if IsConnected env c then []
                else [LogError "Client is disconnected"]).
Proof.
  split; [| split].
  - intros pr0 client r pr1 H. unfold IsHealty in H.
    destruct (IsExhausted pr0) eqn:Hex.
    + inversion H; subst; simpl.
      rewrite <- IsExhausted_true, Hex.
      repeat split; eauto; congruence.
    + assert (¬ (Elastic pr0 = false
                 ∧ Pool.Size (availableConnections pr0) = 0
                 ∧ Pool.Cap (availableConnections pr0) > 0)) as Hn.
      { rewrite <- IsExhausted_true, Hex. discriminate. }
      assert (r = (client, None)
              ∧ availableConnections pr1 = availableConnections pr0
              ∧ busyConnections pr1 = busyConnections pr0) as (-> & ? & ?).
      { destruct client as [cl|].
        - inversion H; subst. by destruct (IsConnected env cl).
        - destruct (IsConnected_nil env) as [[]|]; inversion H; by subst. }
      simpl. split; [done |]. split; [| by split].
      split; [intros [? ?]; done | intros ?; by destruct Hn].
  - intros pr0 cl. unfold IsHealty. destruct (IsExhausted pr0).
    + eexists _, _. split; [reflexivity | discriminate].
    + eexists _, _. split; [reflexivity |]. intros _.
      destruct (IsConnected env cl); [by rewrite app_nil_r | reflexivity].
  - rewrite Connect_not_exhausted by exact Hnot. rewrite Hpop.
    rewrite Connect_bind_trace by done.
    eexists. split; [reflexivity |].
    cbn [busyConnections availableConnections set_available Pool.entries
         trace].
    split; [reflexivity |]. split; [reflexivity |].
    by rewrite drop_app_length.
Qed.

(** The last backend of a bounded pool is taken, and a backend of an
    unbounded pool is taken while it is disconnected: the two reasons for
    the liveness check to complain, each logged, and the backend bound. *)
Lemma C8_liveness_check_never_aborts_witness :
  let env := mkEnv (rank Ex.quiet) (PutError Ex.quiet) (λ _, false) None
               (NewClient Ex.quiet) (Next Ex.quiet) (ConnLocalAddr Ex.quiet)
               (ConnRemoteAddr Ex.quiet) (AsyncWrite Ex.quiet)
               (ClientLocalAddr Ex.quiet) (ClientRemoteAddr Ex.quiet)
               (Send Ex.quiet) (Receive Ex.quiet) (Run Ex.quiet) in
  (∃ pr',
     Connect env (Ex.engine1 1 false false) 7%nat = Returned None pr'
     ∧ Pool.entries (busyConnections pr')
       = <[KConn 7%nat := VClient Ex.backend1]> ∅
     ∧ drop (length (trace (Ex.engine1 1 false false))) (trace pr')
       = [LogError "No more available connections";
          LogError "Failed to connect to the client"])
  ∧ (∃ pr',
       Connect env (Ex.engine1 0 false false) 7%nat = Returned None pr'
       ∧ Pool.entries (busyConnections pr')
         = <[KConn 7%nat := VClient Ex.backend1]> ∅
       ∧ drop (length (trace (Ex.engine1 0 false false))) (trace pr')
         = [LogError "Client is disconnected"]).
Proof.
  intros env. split.
  - destruct (C8_liveness_check_never_aborts env (Ex.engine1 1 false false)
                7%nat Ex.backend1) as (_ & _ & pr' & Hcall & Hbusy' & _ & Hlog).
    + reflexivity.
    + reflexivity.
    + vm_compute. reflexivity.
    + reflexivity.
    + exists pr'. split; [exact Hcall |]. split; [exact Hbusy' |].
      rewrite Hlog.
      assert (IsExhausted pr' = true) as ->; [| reflexivity].
      vm_compute in Hcall. apply Returned_inj in Hcall as [_ <-]. reflexivity.
  - destruct (C8_liveness_check_never_aborts env (Ex.engine1 0 false false)
                7%nat Ex.backend1) as (_ & _ & pr' & Hcall & Hbusy' & _ & Hlog).
    + reflexivity.
    + reflexivity.
    + vm_compute. reflexivity.
    + reflexivity.
    + exists pr'. split; [exact Hcall |]. split; [exact Hbusy' |].
      rewrite Hlog.
      assert (IsExhausted pr' = false) as ->; [| reflexivity].
      vm_compute in Hcall. apply Returned_inj in Hcall as [_ <-]. reflexivity.
Defined.

(** C7, on the code: an elastic engine whose available pool is empty,
    whatever its capacity, does not build a backend in [Connect].
    [IsExhausted] answers false because the engine is elastic, so the
    branch that calls [NewClient] is not taken; the pop of the key [""]
    finds nothing, the client stays nil and the call crashes on it. *)
Theorem C7_elastic_connect_builds_no_backend :
  ∀ env capacity reuse gconn,
    ∃ effects,
      Connect env (Ex.engine0 capacity true reuse) gconn = Panicked effects
      ∧ ∀ c, Created c ∉ effects.
Proof.
  intros env capacity reuse gconn.
  unfold Connect, Connect_bind, IsHealty, IsExhausted. simpl.
  destruct (IsConnected_nil env) as [[]|]; simpl.
  - eexists. split; [reflexivity |]. intros c Hc. by apply elem_of_nil in Hc.
  - eexists. split; [reflexivity |]. intros c Hc.
    apply list_elem_of_singleton in Hc. discriminate.
  - eexists. split; [reflexivity |]. intros c Hc. by apply elem_of_nil in Hc.
Qed.

(** C10, on the code: a non-elastic engine over an empty pool of capacity 0
    is not exhausted, pops nothing and crashes on the nil client; so does
    any engine whose pool holds, under the key the iteration picks, a value
    that is not a backend client. *)
Theorem C10_connect_crashes_on_nil_client :
  ∀ env gconn,
    (∃ effects,
       Connect env (Ex.engine0 0 false false) gconn = Panicked effects)
    ∧ (∃ effects,
         Connect env
           (NewProxy (Pool.mk 0 {[ KStr "c0ffee" := VOther 0 ]}) false false
              (Some Ex.template)) gconn
         = Panicked effects).
Proof.
  intros env gconn. split.
  - unfold Connect, Connect_bind, IsHealty, IsExhausted. simpl.
    destruct (IsConnected_nil env) as [[]|]; simpl; eauto.
  - rewrite Connect_not_exhausted by reflexivity.
    assert (first_clientID env
              (NewProxy (Pool.mk 0 {[ KStr "c0ffee" := VOther 0 ]}) false false
                 (Some Ex.template)) = "c0ffee") as ->.
    { unfold first_clientID, Pool.ForEach, Pool.visit_order. simpl.
      rewrite map_to_list_singleton. reflexivity. }
    simpl. rewrite lookup_singleton_eq.
    apply Connect_bind_nil. reflexivity.
Qed.

(** ** Facts about [PassThrough] *)

Lemma add_events_add pr l1 l2 :
  add_events (add_events pr l1) l2 = add_events pr (l1 ++ l2).
Proof. unfold add_events. simpl. by rewrite app_assoc. Qed.

Lemma add_events_nil pr : add_events pr [] = pr.
Proof. unfold add_events. rewrite app_nil_r. by destruct pr. Qed.

Lemma emit_add ev pr : emit ev pr = add_events pr [ev].
Proof. reflexivity. Qed.

Lemma log_if_add {A} (o : option A) msg pr :
  log_if o msg pr
  = add_events pr (match o with Some _ => [LogError msg] | None => [] end).
Proof. destruct o; simpl; [reflexivity | by rewrite add_events_nil]. Qed.

Lemma slice_to_all (s : bytes) :
  slice_to (Some s) (Z.of_nat (length s)) = Some (Some s).
Proof.
  unfold slice_to. rewrite bool_decide_eq_true_2 by lia.
  by rewrite Nat2Z.id, firstn_all.
Qed.

(** Cutting at 0 never fails: it gives nil for nil and the empty slice for
    any other. *)
Lemma slice_to_0 (s : option bytes) :
  slice_to s 0 = Some (match s with Some _ => Some [] | None => None end).
Proof.
  destruct s as [b|]; unfold slice_to; [| reflexivity].
  rewrite bool_decide_eq_true_2 by lia. reflexivity.
Qed.

(** The reply: when the first slice is in range the call returns, after
    running the egress hooks on it and submitting one write. *)
Lemma PassThrough_reply_returns env pr g c n resp err body :
  slice_to resp n = Some body →
  let payload := trafficData env g c "response" body (ArgGatewayD err) in
  let answer := Run env payload OnEgressTraffic in
  let out :=
    match (extractField answer.1 "response").1 with
    | Some modResponse => Some modResponse
    | None => body
    end in
  ∃ logs1 logs2,
    only_logs logs1 ∧ only_logs logs2 ∧
    PassThrough_reply env pr g c n resp err
    = Returned
        (match AsyncWrite env g out with
         | Some _ => Some (Wrap ErrServerSendFailed (as_error <$> answer.2))
         | None => None
         end)
        (add_events pr
           ([HookRun OnEgressTraffic payload] ++ logs1
            ++ [WriteSubmitted g out] ++ logs2)).
Proof.
  intros Hbody payload answer out.
  exists (match answer.2 with
          | Some _ => [LogError "Error running hook"] | None => [] end
          ++ if bool_decide ((extractField answer.1 "response").2 ≠ "")
             then [LogError "Error in hook"] else []),
         (match AsyncWrite env g out with
          | Some _ => [LogError "Error writing to client"] | None => [] end).
  split; [| split].
  - apply Forall_app. split; [destruct (answer.2) | case_bool_decide];
      repeat constructor.
  - destruct (AsyncWrite env g out); repeat constructor.
  - unfold PassThrough_reply. rewrite Hbody.
    fold payload. fold answer. subst out.
    destruct answer as [result herr]. simpl.
    destruct (extractField result "response") as [modResponse errMsg]. simpl.
    assert (slice_to
              (match modResponse with Some m => (Some m, Z.of_nat (length m))
               | None => (resp, n) end).1
              (match modResponse with Some m => (Some m, Z.of_nat (length m))
               | None => (resp, n) end).2
            = Some (match modResponse with Some m => Some m | None => body end))
      as Hout.
    { destruct modResponse; simpl; [apply slice_to_all | exact Hbody]. }
    destruct (match modResponse with Some m => (Some m, Z.of_nat (length m))
              | None => (resp, n) end) as [response received].
    simpl in Hout. rewrite Hout.
    rewrite !log_if_add, !emit_add.
    destruct (AsyncWrite env g _); case_bool_decide; destruct herr;
      rewrite ?emit_add, ?add_events_add; reflexivity.
Qed.

Lemma PassThrough_reply_panics env pr g c n resp err :
  slice_to resp n = None →
  PassThrough_reply env pr g c n resp err = Panicked (trace pr).
Proof. intros H. unfold PassThrough_reply. by rewrite H. Qed.

Lemma backend_closed_true n err :
  backend_closed n err = true ↔
  n = 0 ∧ ∃ e, err = Some e ∧ errors_Is_EOF (Unwrap e) = true.
Proof.
  unfold backend_closed. rewrite andb_true_iff, bool_decide_eq_true.
  destruct err as [e|]; split.
  - intros [? ?]. eauto.
  - intros (? & e' & [= <-] & ?). auto.
  - intros [_ ?]. discriminate.
  - intros (_ & e' & ? & _). discriminate.
Qed.

(** The backend has closed and a new one is dialled: it takes the place of
    the old one in the busy pool and the call goes on with it. *)
Lemma PassThrough_reconnect_closed env pr g client n resp err cfg c' :
  backend_closed n err = true →
  ClientConfig pr = Some cfg →
  NewClient env (Network cfg) (Address cfg) (ReceiveBufferSize cfg)
    (ReceiveChunkSize cfg) (ReceiveDeadline cfg) (SendDeadline cfg) = Some c' →
  Pool.Cap (busyConnections pr) = EmptyPoolCapacity →
  PassThrough_reconnect env pr g client n resp err
  = PassThrough_reply env
      (set_busy (add_events pr [ClientClosed client; Created (Some c')])
         (Pool.mk (Pool.cap (busyConnections pr))
            (<[KConn g := VClient c']>
               (delete (KConn g) (Pool.entries (busyConnections pr))))))
      g c' n resp err.
Proof.
  intros Hclosed Hcfg Hnew Hbusy. unfold PassThrough_reconnect.
  rewrite Hclosed. simpl. rewrite Hcfg, Hnew. simpl.
  rewrite Put_unbounded by exact Hbusy. simpl.
  unfold set_busy, add_events, emit. simpl. by rewrite <- app_assoc.
Qed.

(** The backend has closed and no new one can be dialled: the nil pointer
    is stored in the unbounded busy pool, and [trafficData] crashes on it. *)
Lemma PassThrough_reconnect_lost env pr g client n resp err cfg :
  backend_closed n err = true →
  ClientConfig pr = Some cfg →
  NewClient env (Network cfg) (Address cfg) (ReceiveBufferSize cfg)
    (ReceiveChunkSize cfg) (ReceiveDeadline cfg) (SendDeadline cfg) = None →
  Pool.Cap (busyConnections pr) = EmptyPoolCapacity →
  PassThrough_reconnect env pr g client n resp err
  = Panicked (trace pr ++ [ClientClosed client; Created None]).
Proof.
  intros Hclosed Hcfg Hnew Hbusy. unfold PassThrough_reconnect.
  rewrite Hclosed. simpl. rewrite Hcfg, Hnew. simpl.
  rewrite full_unbounded by exact Hbusy. by rewrite <- app_assoc.
Qed.

Lemma PassThrough_reconnect_no_template env pr g client n resp err :
  backend_closed n err = true →
  ClientConfig pr = None →
  PassThrough_reconnect env pr g client n resp err
  = Panicked (trace pr ++ [ClientClosed client]).
Proof.
  intros Hclosed Hcfg. unfold PassThrough_reconnect.
  rewrite Hclosed. simpl. by rewrite Hcfg.
Qed.

Lemma PassThrough_reconnect_open env pr g client n resp err :
  backend_closed n err = false →
  PassThrough_reconnect env pr g client n resp err
  = PassThrough_reply env pr g client n resp err.
Proof. intros H. unfold PassThrough_reconnect. by rewrite H. Qed.

(** With a backend bound, [PassThrough] runs the ingress hooks, sends and
    calls receive once each, and goes on with what was received. *)
Lemma PassThrough_bound env pr g client :
  Pool.entries (busyConnections pr) !! KConn g = Some (VClient client) →
  let read := Next env g in
  let payload :=
    trafficData env g client "request" read.1 (arg_of_error read.2) in
  let got := Receive env client in
  ∃ logs0 logs1 logs2,
    only_logs logs0 ∧ only_logs logs1 ∧ only_logs logs2 ∧
    PassThrough env pr g
    = PassThrough_reconnect env
        (add_events pr
           (logs0 ++ [HookRun OnIngressTraffic payload] ++ logs1
            ++ [Sent client (request_sent env g client)] ++ logs2
            ++ [ReceiveCalled client]))
        g client got.1.1 got.1.2 got.2.
Proof.
  intros Hbound read payload got.
  exists (match read.2 with
          | Some _ => [LogError "Error reading from client"] | None => [] end),
         (match (Run env payload OnIngressTraffic).2 with
          | Some _ => [LogError "Error running hook"] | None => [] end
          ++ if bool_decide
                  ((extractField (Run env payload OnIngressTraffic).1 "request").2
                   ≠ "")
             then [LogError "Error in hook"] else []),
         (match (Send env client (request_sent env g client)).2 with
          | Some _ => [LogError "Error sending request to database"]
          | None => [] end).
  split; [| split; [| split]].
  - destruct (read.2); repeat constructor.
  - apply Forall_app.
    split; [destruct ((Run env payload OnIngressTraffic).2) | case_bool_decide];
      repeat constructor.
  - destruct ((Send env client (request_sent env g client)).2);
      repeat constructor.
  - unfold PassThrough, Pool.Get. rewrite Hbound.
    unfold request_sent. fold read. subst got.
    destruct read as [request origErr]. simpl. subst payload. simpl.
    destruct (Run env _ OnIngressTraffic) as [result herr]. simpl.
    destruct (extractField result "request") as [modRequest errMsg]. simpl.
    destruct (Send env client _) as [sent serr]. simpl.
    destruct (Receive env client) as [[received response] rerr]. simpl.
    rewrite !log_if_add, !emit_add.
    case_bool_decide; destruct origErr, herr, serr;
      rewrite ?emit_add, ?add_events_add; reflexivity.
Qed.

Lemma new_events_app {A} pr (r : Result A) evs :
  effects_of r = trace pr ++ evs → new_events pr r = evs.
Proof. intros H. unfold new_events. rewrite H. apply drop_app_length. Qed.

(** Effects are only ever added. *)
Lemma PassThrough_reply_extends env pr g c n resp err :
  ∃ evs, effects_of (PassThrough_reply env pr g c n resp err) = trace pr ++ evs.
Proof.
  destruct (slice_to resp n) as [body|] eqn:Hs.
  - destruct (PassThrough_reply_returns env pr g c n resp err body Hs)
      as (l1 & l2 & _ & _ & ->). simpl. eauto.
  - rewrite PassThrough_reply_panics by exact Hs. exists []. simpl.
    by rewrite app_nil_r.
Qed.

Lemma PassThrough_reconnect_extends env pr g c n resp err :
  ∃ evs,
    effects_of (PassThrough_reconnect env pr g c n resp err) = trace pr ++ evs.
Proof.
  unfold PassThrough_reconnect. destruct (backend_closed n err).
  - simpl. destruct (ClientConfig pr) as [cfg|]; [| by eexists].
    destruct (NewClient env _ _ _ _ _ _) as [c'|]; simpl.
    + destruct (Pool.Put _ _ _ _) as [[perr|] busy]; simpl.
      * rewrite <- app_assoc. by eexists.
      * match goal with |- context [PassThrough_reply ?e ?p ?g' ?c0 ?n0 ?r0 ?e0] =>
          destruct (PassThrough_reply_extends e p g' c0 n0 r0 e0) as (evs & ->)
        end.
        simpl. rewrite <- !app_assoc. by eexists.
    + destruct (Pool.full _); simpl; rewrite <- app_assoc; by eexists.
  - apply PassThrough_reply_extends.
Qed.

(** The outcome of [PassThrough] when the busy pool is the one of
    [NewProxy] and a backend is bound: nil or the server-send-failed
    error. *)
Lemma PassThrough_reply_result env pr g c n resp err r pr' :
  PassThrough_reply env pr g c n resp err = Returned r pr' →
  r = None ∨ ∃ cause, r = Some (Wrap ErrServerSendFailed cause).
Proof.
  intros H. destruct (slice_to resp n) as [body|] eqn:Hs.
  - destruct (PassThrough_reply_returns env pr g c n resp err body Hs)
      as (l1 & l2 & _ & _ & Heq).
    rewrite Heq in H. inversion H as [[Hr Hp]].
    destruct (AsyncWrite env g _); eauto.
  - rewrite PassThrough_reply_panics in H by exact Hs. discriminate.
Qed.

Lemma PassThrough_reconnect_result env pr g c n resp err r pr' :
  Pool.Cap (busyConnections pr) = EmptyPoolCapacity →
  PassThrough_reconnect env pr g c n resp err = Returned r pr' →
  r = None ∨ ∃ cause, r = Some (Wrap ErrServerSendFailed cause).
Proof.
  intros Hbusy H. unfold PassThrough_reconnect in H.
  destruct (backend_closed n err).
  - simpl in H. destruct (ClientConfig pr) as [cfg|]; [| discriminate].
    destruct (NewClient env _ _ _ _ _ _) as [c'|]; simpl in H.
    + rewrite Put_unbounded in H by exact Hbusy.
      by apply PassThrough_reply_result in H.
    + rewrite full_unbounded in H by exact Hbusy. discriminate.
  - by apply PassThrough_reply_result in H.
Qed.

(** C1, on the code.  A [PassThrough] whose backend [Receive] gives zero
    bytes and an error that unwraps to [io.EOF] closes the bound backend
    and calls [NewClient] with the fields of [ClientConfig].
    When [NewClient] gives a backend, the same inbound connection is bound
    to it in the busy pool (under the identifier [NewClient] gave it), the
    available pool is untouched, and a later [PassThrough] for that inbound
    connection, whatever the outside answers then, sends to and receives
    from the replacement, returns nothing but nil or the server-send-failed
    error, and does return when the replacement answers within its buffer.
    When [NewClient] gives nil, the old backend has been closed, the nil
    pointer is stored and the call crashes on it before the egress hooks;
    it crashes as well, after closing the backend, when there is no
    [ClientConfig] to read the fields from. *)
Theorem C1_backend_eof_redial env pr g client resp e
    (Hbound : Pool.entries (busyConnections pr) !! KConn g = Some (VClient client))
    (Hrecv : Receive env client = (0, resp, Some e))
    (Heof : errors_Is_EOF (Unwrap e) = true)
    (Hbusy : Pool.Cap (busyConnections pr) = EmptyPoolCapacity) :
  ClientClosed client ∈ new_events pr (PassThrough env pr g)
  ∧ match ClientConfig pr with
    | None =>
        ∃ pre,
          PassThrough env pr g = Panicked (trace pr ++ pre ++ [ClientClosed client])
    | Some cfg =>
        match NewClient env (Network cfg) (Address cfg) (ReceiveBufferSize cfg)
                (ReceiveChunkSize cfg) (ReceiveDeadline cfg) (SendDeadline cfg)
        with
        | None =>
            ∃ pre,
              PassThrough env pr g
              = Panicked (trace pr ++ pre ++ [ClientClosed client; Created None])
        | Some c' =>
            ∃ r pr',
              PassThrough env pr g = Returned r pr'
              ∧ Created (Some c') ∈ new_events pr (PassThrough env pr g)
              ∧ Pool.entries (busyConnections pr')
                = <[KConn g := VClient c']> (Pool.entries (busyConnections pr))
              ∧ availableConnections pr' = availableConnections pr
              ∧ ∀ env2,
                  let got := Receive env2 c' in
                  Sent c' (request_sent env2 g c')
                    ∈ new_events pr' (PassThrough env2 pr' g)
                  ∧ ReceiveCalled c' ∈ new_events pr' (PassThrough env2 pr' g)
                  ∧ (∀ r2 pr2,
                       PassThrough env2 pr' g = Returned r2 pr2 →
                       r2 = None ∨ ∃ cause, r2 = Some (Wrap ErrServerSendFailed cause))
                  ∧ (backend_closed got.1.1 got.2 = false →
                     is_Some (slice_to got.1.2 got.1.1) →
                     ∃ r2 pr2, PassThrough env2 pr' g = Returned r2 pr2)
        end
    end.
Proof.
  destruct (PassThrough_bound env pr g client Hbound)
    as (l0 & l1 & l2 & _ & _ & _ & Hpt).
  rewrite Hrecv in Hpt. cbn [fst snd] in Hpt.
  assert (backend_closed 0 (Some e) = true) as Hclosed.
  { apply backend_closed_true. eauto. }
  destruct (ClientConfig pr) as [cfg|] eqn:Hcfg.
  2: { rewrite PassThrough_reconnect_no_template in Hpt by done.
       cbn [trace add_events] in Hpt. rewrite <- (app_assoc (trace pr)) in Hpt.
       split; [| eexists; exact Hpt].
       erewrite new_events_app; [| rewrite Hpt; reflexivity].
       rewrite !elem_of_app, !elem_of_cons. auto 10. }
  destruct (NewClient env _ _ _ _ _ _) as [c'|] eqn:Hnew.
  2: { rewrite (PassThrough_reconnect_lost _ _ _ _ _ _ _ cfg) in Hpt by done.
       cbn [trace add_events] in Hpt. rewrite <- (app_assoc (trace pr)) in Hpt.
       split; [| eexists; exact Hpt].
       erewrite new_events_app; [| rewrite Hpt; reflexivity].
       rewrite !elem_of_app, !elem_of_cons. auto 10. }
  rewrite (PassThrough_reconnect_closed _ _ _ _ _ _ _ cfg c') in Hpt;
    [| exact Hclosed | exact Hcfg | exact Hnew | exact Hbusy ].
  match type of Hpt with _ = PassThrough_reply ?e0 ?p ?g0 ?c0 ?n0 ?r0 ?er0 =>
    destruct (PassThrough_reply_returns e0 p g0 c0 n0 r0 er0 _ (slice_to_0 _))
      as (k1 & k2 & _ & _ & Hreply)
  end.
  rewrite Hreply in Hpt. clear Hreply.
  rewrite Hpt.
  match goal with |- context [new_events pr ?r] =>
    assert (∃ a b, new_events pr r
                   = (a ++ [ClientClosed client; Created (Some c')]) ++ b)
      as (a & b & Hnewev)
  end.
  { eexists _, _. apply new_events_app.
    cbn [effects_of trace add_events set_busy].
    rewrite <- (app_assoc (trace pr)). rewrite <- (app_assoc (trace pr)).
    reflexivity. }
  rewrite Hnewev. clear Hnewev.
  split; [rewrite !elem_of_app, !elem_of_cons; auto 10 |].
  eexists _, _. split; [reflexivity |].
  split; [rewrite !elem_of_app, !elem_of_cons; auto 10 |].
  split; [cbn [busyConnections set_busy add_events Pool.entries];
          apply insert_delete_eq |].
  split; [reflexivity |].
  intros env2 got.
  match goal with |- context [PassThrough env2 ?p g] => set (pr' := p) end.
  assert (Pool.entries (busyConnections pr') !! KConn g = Some (VClient c'))
    as Hbound2
    by (cbn [pr' busyConnections set_busy add_events Pool.entries];
        apply lookup_insert_eq).
  assert (Pool.Cap (busyConnections pr') = EmptyPoolCapacity) as Hbusy2
    by exact Hbusy.
  destruct (PassThrough_bound env2 pr' g c' Hbound2)
    as (m0 & m1 & m2 & _ & _ & _ & Hpt2).
  fold got in Hpt2.
  clearbody pr'.
  match type of Hpt2 with _ = PassThrough_reconnect ?e0 ?p ?g0 ?c0 ?n0 ?r0 ?er0 =>
    destruct (PassThrough_reconnect_extends e0 p g0 c0 n0 r0 er0) as (evs & Hext);
    pose proof (PassThrough_reconnect_result e0 p g0 c0 n0 r0 er0) as Hres
  end.
  rewrite <- Hpt2 in Hext, Hres. cbn [trace add_events] in Hext.
  rewrite <- (app_assoc (trace pr')) in Hext. apply new_events_app in Hext.
  rewrite Hext.
  split; [rewrite !elem_of_app, !elem_of_cons; auto 10 |].
  split; [rewrite !elem_of_app, !elem_of_cons; auto 10 |].
  split.
  - intros r2 pr2 H2. apply (Hres r2 pr2); [exact Hbusy2 | exact H2].
  - intros Hopen [body Hbody]. rewrite Hpt2.
    rewrite PassThrough_reconnect_open by exact Hopen.
    match goal with |- context [PassThrough_reply ?e0 ?p ?g0 ?c0 ?n0 ?r0 ?er0] =>
      destruct (PassThrough_reply_returns e0 p g0 c0 n0 r0 er0 body Hbody)
        as (j1 & j2 & _ & _ & ->)
    end.
    eauto.
Qed.

(** The backend has closed and the dial of a new one fails: the call
    crashes.  With a dial that succeeds the connection is bound to the new
    backend, and the next call returns. *)
Lemma C1_backend_eof_redial_witness :
  (∃ effects,
     PassThrough Ex.backend_lost (Ex.bound1 0 false false) 7%nat
     = Panicked effects)
  ∧ ∃ r pr',
      PassThrough Ex.backend_gone (Ex.bound1 0 false false) 7%nat = Returned r pr'
      ∧ Pool.entries (busyConnections pr')
        = <[KConn 7%nat :=
              VClient (mkClient "9f86d081884c7d65" "tcp" "localhost:5432"
                         4096 4096 0 0)]>
            (Pool.entries (busyConnections (Ex.bound1 0 false false)))
      ∧ ∃ r2 pr2, PassThrough Ex.quiet pr' 7%nat = Returned r2 pr2.
Proof.
  split.
  - destruct (C1_backend_eof_redial Ex.backend_lost (Ex.bound1 0 false false)
                7%nat Ex.backend1 None Ex.receiveErr
                eq_refl eq_refl eq_refl eq_refl) as [_ [pre Hcrash]].
    eexists. exact Hcrash.
  - destruct (C1_backend_eof_redial Ex.backend_gone (Ex.bound1 0 false false)
                7%nat Ex.backend1 None Ex.receiveErr
                eq_refl eq_refl eq_refl eq_refl)
      as [_ (r & pr' & Hcall & _ & Hbusy' & _ & Hnext)].
    exists r, pr'. split; [exact Hcall |]. split; [exact Hbusy' |].
    apply (Hnext Ex.quiet); [reflexivity | eexists; reflexivity].
Defined.

Lemma only_logs_elem (l : list Event) ev :
  only_logs l → ev ∈ l → is_log ev = true.
Proof. intros Hl Hin. rewrite Forall_forall in Hl. by apply Hl. Qed.

Lemma extractField_replacement (result : HookMap) fieldName payload :
  result !! fieldName = Some (ABytes (Some payload)) →
  (extractField (Some result) fieldName).1 = Some payload.
Proof. intros H. unfold extractField. by rewrite H. Qed.

Lemma PassThrough_reply_shape env pr g c n resp err :
  ∃ evs,
    effects_of (PassThrough_reply env pr g c n resp err) = trace pr ++ evs
    ∧ egress_shape env g err evs.
Proof.
  destruct (slice_to resp n) as [body|] eqn:Hs.
  - destruct (PassThrough_reply_returns env pr g c n resp err body Hs)
      as (l1 & l2 & Hl1 & Hl2 & ->).
    eexists. split; [reflexivity |]. right. exists c, body, l1, l2.
    split; [done |]. split; [done |]. reflexivity.
  - rewrite PassThrough_reply_panics by exact Hs. exists [].
    split; [by rewrite app_nil_r | by left].
Qed.

Lemma PassThrough_reconnect_shape env pr g c n resp err :
  ∃ mid evs,
    effects_of (PassThrough_reconnect env pr g c n resp err)
    = trace pr ++ mid ++ evs
    ∧ Forall (λ ev, is_lifecycle ev = true) mid
    ∧ egress_shape env g err evs.
Proof.
  unfold PassThrough_reconnect. destruct (backend_closed n err).
  - cbn zeta. cbn [ClientConfig emit].
    destruct (ClientConfig pr) as [cfg|].
    + destruct (NewClient env _ _ _ _ _ _) as [c'|].
      * destruct (Pool.Put _ _ _ _) as [[perr|] busy].
        -- eexists [_; _], []. cbn [effects_of trace set_busy emit].
           rewrite <- app_assoc, app_nil_r.
           split; [reflexivity |]. split; [by repeat constructor | by left].
        -- match goal with |- context [PassThrough_reply ?e ?p ?g' ?c0 ?n0 ?r0 ?e0] =>
             destruct (PassThrough_reply_shape e p g' c0 n0 r0 e0)
               as (evs & -> & Hevs)
           end.
           eexists [_; _], evs. cbn [effects_of trace set_busy emit].
           rewrite <- !app_assoc.
           split; [reflexivity |]. split; [by repeat constructor | done].
      * destruct (Pool.full _); eexists [_; _], [];
          cbn [effects_of trace set_busy emit];
          rewrite <- app_assoc, app_nil_r;
          (split; [reflexivity |]; split; [by repeat constructor | by left]).
    + eexists [_], []. cbn [effects_of trace]. rewrite app_nil_r.
      split; [reflexivity |]. split; [by repeat constructor | by left].
  - destruct (PassThrough_reply_shape env pr g c n resp err) as (evs & -> & Hevs).
    exists [], evs. split; [reflexivity |]. split; [constructor | done].
Qed.

(** What a [PassThrough] with a backend bound adds to the trace. *)
Lemma PassThrough_events env pr g client :
  Pool.entries (busyConnections pr) !! KConn g = Some (VClient client) →
  ∃ pre mid post,
    new_events pr (PassThrough env pr g) = pre ++ mid ++ post
    ∧ ingress_shape env g client pre
    ∧ Forall (λ ev, is_lifecycle ev = true) mid
    ∧ egress_shape env g (Receive env client).2 post.
Proof.
  intros Hbound.
  destruct (PassThrough_bound env pr g client Hbound)
    as (l0 & l1 & l2 & H0 & H1 & H2 & ->).
  match goal with |- context [PassThrough_reconnect ?e ?p ?g' ?c0 ?n0 ?r0 ?e0] =>
    destruct (PassThrough_reconnect_shape e p g' c0 n0 r0 e0)
      as (mid & post & Heff & Hmid & Hpost)
  end.
  eexists _, mid, post. split; [| split; [| split; [exact Hmid | exact Hpost]]].
  - apply new_events_app. rewrite Heff. cbn [trace add_events].
    rewrite <- (app_assoc (trace pr)). reflexivity.
  - exists l0, l1, l2. split; [done |]. split; [done |]. split; [done |].
    reflexivity.
Qed.

(** Split the membership [H] of an event in a trace into its cases and
    drop those where the event has the wrong kind. *)
Ltac event_cases H :=
  repeat match type of H with
    | _ ∈ _ ++ _ => apply elem_of_app in H as [H|H]
    | _ ∈ _ :: _ => apply elem_of_cons in H as [H|H]
    | _ ∈ [] => by apply elem_of_nil in H
    end;
  try discriminate H;
  try (match goal with
       | Hl : only_logs ?l |- _ =>
           match type of H with _ ∈ l =>
             apply (only_logs_elem _ _ Hl) in H; discriminate H end
       | Hl : Forall (λ ev, is_lifecycle ev = true) ?l |- _ =>
           match type of H with _ ∈ l =>
             rewrite Forall_forall in Hl; apply Hl in H; discriminate H end
       end).

Lemma HookRun_payload h p h' p' : HookRun h p = HookRun h' p' → p = p'.
Proof. congruence. Qed.

(** C6. In a [PassThrough] with a backend bound: when the result of the
    ingress hooks holds a byte slice under ["request"], that slice, and not
    what was read from the inbound connection, is the one thing sent to the
    backend; when the result of the egress hooks holds a byte slice under
    ["response"] (non-empty or not), that slice, whole, is the one thing
    written back to the inbound connection.  When the backend has not
    closed and answers within its buffer, the egress hooks are run on that
    answer and the call returns. *)
Theorem C6_hook_payloads_supersede env pr g client
    (Hbound : Pool.entries (busyConnections pr) !! KConn g = Some (VClient client)) :
  let evs := new_events pr (PassThrough env pr g) in
  let got := Receive env client in
  (∀ result payload,
     (Run env
        (trafficData env g client "request" (Next env g).1
           (arg_of_error (Next env g).2))
        OnIngressTraffic).1 = Some result →
     result !! "request" = Some (ABytes (Some payload)) →
     Sent client (Some payload) ∈ evs
     ∧ ∀ c d, Sent c d ∈ evs → c = client ∧ d = Some payload)
  ∧ (∀ egress result payload,
       HookRun OnEgressTraffic egress ∈ evs →
       (Run env egress OnEgressTraffic).1 = Some result →
       result !! "response" = Some (ABytes (Some payload)) →
       WriteSubmitted g (Some payload) ∈ evs
       ∧ ∀ g' d, WriteSubmitted g' d ∈ evs → g' = g ∧ d = Some payload)
  ∧ (∀ body,
       backend_closed got.1.1 got.2 = false →
       slice_to got.1.2 got.1.1 = Some body →
       HookRun OnEgressTraffic
         (trafficData env g client "response" body (ArgGatewayD got.2)) ∈ evs
       ∧ ∃ r pr', PassThrough env pr g = Returned r pr').
Proof.
  intros evs got.
  destruct (PassThrough_events env pr g client Hbound)
    as (pre & mid & post & Hevs & (l0 & l1 & l2 & H0 & H1 & H2 & Hpre)
        & Hmid & Hpost).
  fold evs in Hevs. split; [| split].
  - intros result payload Hrun Hfield.
    assert (request_sent env g client = Some payload) as Hreq.
    { unfold request_sent. cbn zeta. rewrite Hrun.
      by rewrite (extractField_replacement _ _ _ Hfield). }
    rewrite Hreq in Hpre. rewrite Hevs, Hpre. split.
    + rewrite !elem_of_app, !elem_of_cons. auto 10.
    + intros c d Hin.
      destruct Hpost as [-> | (c2 & body & k1 & k2 & Hk1 & Hk2 & ->)];
        event_cases Hin; by inversion Hin.
  - intros egress result payload Hin Hrun Hfield.
    rewrite Hevs, Hpre in Hin |- *.
    destruct Hpost as [-> | (c2 & body & k1 & k2 & Hk1 & Hk2 & ->)];
      event_cases Hin.
    apply HookRun_payload in Hin. subst egress.
    unfold superseded. rewrite Hrun.
    rewrite (extractField_replacement _ _ _ Hfield). split.
    + rewrite !elem_of_app, !elem_of_cons. auto 15.
    + intros g' d Hw. event_cases Hw. by inversion Hw.
  - intros body Hopen Hbody. subst evs.
    destruct (PassThrough_bound env pr g client Hbound)
      as (j0 & j1 & j2 & _ & _ & _ & Hpt).
    fold got in Hpt. rewrite Hpt.
    rewrite PassThrough_reconnect_open by exact Hopen.
    match goal with |- context [PassThrough_reply ?e0 ?p ?g0 ?c0 ?n0 ?r0 ?er0] =>
      destruct (PassThrough_reply_returns e0 p g0 c0 n0 r0 er0 body Hbody)
        as (i1 & i2 & _ & _ & ->)
    end.
    split; [| eauto].
    erewrite new_events_app.
    2: { cbn [effects_of trace add_events].
         rewrite <- (app_assoc (trace pr)). reflexivity. }
    rewrite !elem_of_app, !elem_of_cons. auto 15.
Qed.

Lemma C6_hook_payloads_supersede_witness :
  let evs := new_events (Ex.bound1 0 false false)
               (PassThrough Ex.rewriting (Ex.bound1 0 false false) 7%nat) in
  Sent Ex.backend1 (Some Ex.newRequest) ∈ evs
  ∧ WriteSubmitted 7%nat (Some Ex.newResponse) ∈ evs.
Proof.
  intros evs.
  destruct (C6_hook_payloads_supersede Ex.rewriting (Ex.bound1 0 false false)
              7%nat Ex.backend1) as (Hreq & Hresp & Hrun).
  - reflexivity.
  - split.
    + apply (Hreq {[ "request" := ABytes (Some Ex.newRequest) ]}).
      * reflexivity.
      * apply lookup_singleton_eq.
    + destruct (Hrun (Some [x6f; x6b]%byte)) as [Hin _];
        [reflexivity | reflexivity |].
      apply (Hresp _ {[ "response" := ABytes (Some Ex.newResponse) ]} _ Hin).
      * reflexivity.
      * apply lookup_singleton_eq.
Defined.

(** C4, on the code: the egress hooks fail with [hookErr] and the write to
    the inbound connection is refused with [writeErr].  The error
    [PassThrough] returns is the server-send-failed error, but what it wraps
    is the error of the hooks, not that of the write. *)
Theorem C4_send_failed_wraps_hook_error :
  AsyncWrite Ex.failing_write 7%nat (Some [x6f; x6b]%byte) = Some Ex.writeErr
  ∧ ∃ pr',
      PassThrough Ex.failing_write (Ex.bound1 0 false false) 7%nat
      = Returned (Some (Wrap ErrServerSendFailed (Some (as_error Ex.hookErr)))) pr'
      ∧ Some (as_error Ex.hookErr) ≠ Some Ex.writeErr.
Proof.
  split; [reflexivity |]. eexists.
  split; [vm_compute; reflexivity | discriminate].
Qed.

(** ** Facts about [Shutdown] *)

Lemma visit_order_elem rank (p : Pool.t) k v :
  (k, v) ∈ Pool.visit_order rank p ↔ Pool.entries p !! k = Some v.
Proof.
  unfold Pool.visit_order. rewrite merge_sort_Permutation.
  apply elem_of_map_to_list.
Qed.

Lemma app_same_nil {A} (l evs : list A) : l ++ evs = l → evs = [].
Proof. intros H. apply (app_inv_head l). by rewrite app_nil_r. Qed.

Lemma visit_all_close_available l pr :
  ∃ evs,
    Pool.visit_all close_available l pr = add_events pr evs
    ∧ ∀ k c, (k, VClient c) ∈ l → ClientClosed c ∈ evs.
Proof.
  revert pr. induction l as [|[k v] l IH]; intros pr.
  - exists []. split; [by rewrite add_events_nil |].
    intros k c H. by apply elem_of_nil in H.
  - cbn [Pool.visit_all close_available].
    destruct v as [cl|n].
    + destruct (IH (emit (ClientClosed cl) pr)) as (evs & -> & Hevs).
      exists (ClientClosed cl :: evs). split.
      * rewrite emit_add, add_events_add. reflexivity.
      * intros k' c H. apply elem_of_cons in H as [[= -> ->]|H].
        -- apply elem_of_cons. auto.
        -- apply elem_of_cons. right. eauto.
    + destruct (IH pr) as (evs & -> & Hevs).
      exists evs. split; [reflexivity |].
      intros k' c H. apply elem_of_cons in H as [[=]|H]. eauto.
Qed.

Lemma visit_all_close_busy l pr :
  ∃ evs,
    Pool.visit_all close_busy l pr = add_events pr evs
    ∧ (∀ k c, (k, VClient c) ∈ l → ClientClosed c ∈ evs)
    ∧ (∀ g v, (KConn g, v) ∈ l → ConnClosed g ∈ evs).
Proof.
  revert pr. induction l as [|[k v] l IH]; intros pr.
  - exists []. split; [by rewrite add_events_nil |].
    split; intros ? ? H; by apply elem_of_nil in H.
  - cbn [Pool.visit_all close_busy].
    match goal with |- context [Pool.visit_all close_busy l ?p] =>
      destruct (IH p) as (evs & -> & Hcl & Hco) end.
    exists ((match k with KConn gconn => [ConnClosed gconn] | _ => [] end)
            ++ (match v with VClient cl => [ClientClosed cl] | _ => [] end)
            ++ evs).
    split; [| split].
    + destruct k, v; rewrite ?emit_add, ?add_events_add; reflexivity.
    + intros k' c H. rewrite !elem_of_app.
      apply elem_of_cons in H as [[= -> <-]|H]; [| eauto].
      right; left. apply elem_of_cons. auto.
    + intros g' v' H. rewrite !elem_of_app.
      apply elem_of_cons in H as [[= <- _]|H]; [| eauto].
      left. apply elem_of_cons. auto.
Qed.

(** C9. After [Shutdown] both pools have size 0, whatever they held; every
    backend client that was in either pool has been closed and so has every
    inbound connection that was a key of the busy pool.  [Shutdown] is a
    total function of the state, whatever the trace says was closed
    before: with both pools empty it changes nothing, and a second
    [Shutdown] changes nothing more. *)
Theorem C9_shutdown_empties_and_closes :
  ∀ env pr,
    let pr' := Shutdown env pr in
    let evs := drop (length (trace pr)) (trace pr') in
    Pool.Size (availableConnections pr') = 0
    ∧ Pool.Size (busyConnections pr') = 0
    ∧ (∀ k c,
         Pool.entries (availableConnections pr) !! k = Some (VClient c)
         ∨ Pool.entries (busyConnections pr) !! k = Some (VClient c) →
         ClientClosed c ∈ evs)
    ∧ (∀ g v,
         Pool.entries (busyConnections pr) !! KConn g = Some v →
         ConnClosed g ∈ evs)
    ∧ (Pool.entries (availableConnections pr) = ∅ →
       Pool.entries (busyConnections pr) = ∅ →
       pr' = pr)
    ∧ Shutdown env pr' = pr'.
Proof.
  intros env pr.
  assert (∀ q, ∃ evs1 evs2,
            Shutdown env q
            = mkProxy (Pool.mk (Pool.cap (availableConnections q)) ∅)
                (Pool.mk (Pool.cap (busyConnections q)) ∅)
                (Elastic q) (ReuseElasticClients q) (ClientConfig q)
                (trace q ++ evs1 ++ evs2)
            ∧ (∀ k c, (k, VClient c)
                        ∈ Pool.visit_order (rank env) (availableConnections q) →
                      ClientClosed c ∈ evs1)
            ∧ (∀ k c, (k, VClient c)
                        ∈ Pool.visit_order (rank env) (busyConnections q) →
                      ClientClosed c ∈ evs2)
            ∧ (∀ g v, (KConn g, v)
                        ∈ Pool.visit_order (rank env) (busyConnections q) →
                      ConnClosed g ∈ evs2)
            ∧ (Pool.entries (availableConnections q) = ∅ → evs1 = [])
            ∧ (Pool.entries (busyConnections q) = ∅ → evs2 = [])) as Hshape.
  { intros q. unfold Shutdown, Pool.ForEach.
    destruct (visit_all_close_available
                (Pool.visit_order (rank env) (availableConnections q)) q)
      as (evs1 & Heq1 & H1).
    rewrite Heq1.
    cbn [availableConnections busyConnections add_events set_available].
    match goal with |- context [Pool.visit_all close_busy ?l ?p] =>
      destruct (visit_all_close_busy l p) as (evs2 & Heq2 & H2 & H3) end.
    rewrite Heq2. exists evs1, evs2.
    split; [| split; [exact H1 | split; [exact H2 | split; [exact H3 |]]]].
    - unfold set_busy, set_available, add_events, Pool.Clear. cbn.
      by rewrite <- app_assoc.
    - split.
      + intros Hempty. unfold Pool.visit_order in Heq1.
        rewrite Hempty, map_to_list_empty in Heq1. cbn in Heq1.
        apply (f_equal trace) in Heq1. cbn in Heq1.
        symmetry in Heq1. by apply app_same_nil in Heq1.
      + intros Hempty. unfold Pool.visit_order in Heq2.
        rewrite Hempty, map_to_list_empty in Heq2. cbn in Heq2.
        apply (f_equal trace) in Heq2. cbn in Heq2.
        symmetry in Heq2. by apply app_same_nil in Heq2. }
  intros pr' evs.
  destruct (Hshape pr) as (evs1 & evs2 & Hpr' & Hav & Hbc & Hbg & He1 & He2).
  fold pr' in Hpr'.
  assert (evs = evs1 ++ evs2) as ->.
  { subst evs. rewrite Hpr'. cbn [trace]. apply drop_app_length. }
  split; [by rewrite Hpr' |]. split; [by rewrite Hpr' |].
  split; [| split; [| split]].
  - intros k c [H|H]; apply elem_of_app.
    + left. apply (Hav k). by apply visit_order_elem.
    + right. apply (Hbc k). by apply visit_order_elem.
  - intros g v H. apply elem_of_app. right. apply (Hbg g v).
    by apply visit_order_elem.
  - intros Ha Hb. rewrite Hpr', (He1 Ha), (He2 Hb), !app_nil_r.
    destruct pr as [[ca ea] [cb eb] ? ? ? ?]. cbn in *. by subst.
  - destruct (Hshape pr') as (f1 & f2 & Hpr'' & _ & _ & _ & Hf1 & Hf2).
    rewrite Hpr''. rewrite Hf1, Hf2 by (by rewrite Hpr').
    rewrite !app_nil_r. rewrite Hpr'. reflexivity.
Qed.

(** ** Facts about [Disconnect] *)

Lemma Put_room perr (p : Pool.t) k v :
  Pool.full p = false →
  Pool.Put perr p k v = (None, Pool.mk (Pool.cap p) (<[k := v]> (Pool.entries p))).
Proof. intros H. unfold Pool.Put. by rewrite H. Qed.

(** A bound backend goes back to an available pool that has room. *)
Lemma Disconnect_recycles env pr gconn c :
  Pool.entries (busyConnections pr) !! KConn gconn = Some (VClient c) →
  Elastic pr = false ∨ ReuseElasticClients pr = true →
  Pool.full (availableConnections pr) = false →
  ∃ logs,
    only_logs logs ∧
    Disconnect env pr gconn
    = Returned None
        (mkProxy
           (Pool.mk (Pool.cap (availableConnections pr))
              (<[KStr (ID c) := VClient c]> (Pool.entries (availableConnections pr))))
           (Pool.mk (Pool.cap (busyConnections pr))
              (delete (KConn gconn) (Pool.entries (busyConnections pr))))
           (Elastic pr) (ReuseElasticClients pr) (ClientConfig pr)
           (trace pr ++ logs)).
Proof.
  intros Hbound Hmode Hroom.
  destruct pr as [avail busy el re cfg tr].
  cbn [availableConnections busyConnections Elastic ReuseElasticClients
       ClientConfig trace] in *.
  unfold Disconnect, Pool.Pop.
  cbn [busyConnections set_busy availableConnections Elastic
       ReuseElasticClients ClientConfig trace].
  rewrite Hbound.
  assert ((el && re) || negb el = true)
    as -> by (destruct Hmode as [H|H]; rewrite H; [done | by destruct el]).
  match goal with |- context [IsHealty env ?p (Some c)] =>
    destruct (IsHealty_client env p c) as (logs & -> & Hlogs);
    set (hot := IsExhausted p)
  end.
  cbn [availableConnections busyConnections Elastic ReuseElasticClients
       ClientConfig trace].
  exists (logs ++ if hot then [LogError "Failed to reconnect to the client"]
                  else []).
  split.
  - apply Forall_app. split; [done |]. destruct hot; by repeat constructor.
  - destruct hot; unfold log_if, emit;
      cbn [availableConnections busyConnections Elastic
           ReuseElasticClients ClientConfig trace];
      rewrite Put_room by exact Hroom; unfold set_available;
      cbn [availableConnections busyConnections Elastic
           ReuseElasticClients ClientConfig trace];
      rewrite <- ?app_assoc, ?app_nil_r; reflexivity.
Qed.

Lemma Put_full perr (p : Pool.t) k v :
  Pool.full p = true → Pool.Put perr p k v = (Some perr, p).
Proof. intros H. unfold Pool.Put. by rewrite H. Qed.

(** With the available pool at its capacity the put-back fails; this is
    logged, and the call returns nil all the same. *)
Lemma Disconnect_no_room env pr gconn c :
  Pool.entries (busyConnections pr) !! KConn gconn = Some (VClient c) →
  Elastic pr = false ∨ ReuseElasticClients pr = true →
  Pool.full (availableConnections pr) = true →
  ∃ logs,
    only_logs logs ∧
    LogError "Failed to put the client back in the pool" ∈ logs ∧
    Disconnect env pr gconn
    = Returned None
        (mkProxy (availableConnections pr)
           (Pool.mk (Pool.cap (busyConnections pr))
              (delete (KConn gconn) (Pool.entries (busyConnections pr))))
           (Elastic pr) (ReuseElasticClients pr) (ClientConfig pr)
           (trace pr ++ logs)).
Proof.
  intros Hbound Hmode Hfull.
  destruct pr as [avail busy el re cfg tr].
  cbn [availableConnections busyConnections Elastic ReuseElasticClients
       ClientConfig trace] in *.
  unfold Disconnect, Pool.Pop.
  cbn [busyConnections set_busy availableConnections Elastic
       ReuseElasticClients ClientConfig trace].
  rewrite Hbound.
  assert ((el && re) || negb el = true)
    as -> by (destruct Hmode as [H|H]; rewrite H; [done | by destruct el]).
  match goal with |- context [IsHealty env ?p (Some c)] =>
    destruct (IsHealty_client env p c) as (logs & -> & Hlogs);
    set (hot := IsExhausted p)
  end.
  cbn [availableConnections busyConnections Elastic ReuseElasticClients
       ClientConfig trace].
  exists (logs
          ++ (if hot then [LogError "Failed to reconnect to the client"] else [])
          ++ [LogError "Failed to put the client back in the pool"]).
  split; [| split].
  - apply Forall_app. split; [done |]. apply Forall_app.
    split; [destruct hot |]; by repeat constructor.
  - rewrite !elem_of_app, list_elem_of_singleton. auto.
  - destruct hot; unfold log_if, emit;
      cbn [availableConnections busyConnections Elastic
           ReuseElasticClients ClientConfig trace];
      rewrite Put_full by exact Hfull; unfold set_available, emit;
      cbn [availableConnections busyConnections Elastic
           ReuseElasticClients ClientConfig trace];
      rewrite <- ?app_assoc; reflexivity.
Qed.

(** Room in the available pool for the backends of both pools is room for
    one that is bound. *)
Lemma has_room_not_full pr k v :
  has_room pr →
  Pool.entries (busyConnections pr) !! k = Some v →
  Pool.full (availableConnections pr) = false.
Proof.
  intros Hroom Hlook.
  assert (Pool.Size (busyConnections pr) >= 1) as Hsize.
  { unfold Pool.Size.
    pose proof (map_size_ne_0_lookup_2 _ _ (mk_is_Some _ _ Hlook)). lia. }
  unfold Pool.full. apply andb_false_iff.
  rewrite !bool_decide_eq_false. unfold has_room, Pool.Cap in Hroom.
  pose proof (Size_nonneg (availableConnections pr)).
  destruct Hroom; [left | right]; lia.
Qed.

Lemma IsExhausted_set_busy pr busy :
  IsExhausted (set_busy pr busy) = IsExhausted pr.
Proof. reflexivity. Qed.

Lemma well_formed_has_room pr : well_formed pr → has_room pr.
Proof. by intros (_ & _ & _ & _ & H). Qed.

(** A bound backend goes back to an available pool that has room, and all
    that is logged is what the liveness check found. *)
Lemma Disconnect_recycles_trace env pr gconn c :
  Pool.entries (busyConnections pr) !! KConn gconn = Some (VClient c) →
  Elastic pr = false ∨ ReuseElasticClients pr = true →
  Pool.full (availableConnections pr) = false →
  Disconnect env pr gconn
  = Returned None
      (mkProxy
         (Pool.mk (Pool.cap (availableConnections pr))
            (<[KStr (ID c) := VClient c]> (Pool.entries (availableConnections pr))))
         (Pool.mk (Pool.cap (busyConnections pr))
            (delete (KConn gconn) (Pool.entries (busyConnections pr))))
         (Elastic pr) (ReuseElasticClients pr) (ClientConfig pr)
         (trace pr
          ++ if IsExhausted pr
             then [LogError "No more available connections";
                   LogError "Failed to reconnect to the client"]
             else if IsConnected env c then []
                  else [LogError "Client is disconnected"])).
Proof.
  intros Hbound Hmode Hroom.
  destruct pr as [avail busy el re cfg tr].
  cbn [availableConnections busyConnections Elastic ReuseElasticClients
       ClientConfig trace] in *.
  unfold Disconnect, Pool.Pop.
  cbn [busyConnections set_busy availableConnections Elastic
       ReuseElasticClients ClientConfig trace].
  rewrite Hbound.
  assert ((el && re) || negb el = true)
    as -> by (destruct Hmode as [H|H]; rewrite H; [done | by destruct el]).
  unfold IsHealty. rewrite IsExhausted_set_busy.
  destruct (IsExhausted (mkProxy avail busy el re cfg tr)).
  - unfold log_if, emit;
      cbn [availableConnections busyConnections Elastic
           ReuseElasticClients ClientConfig trace].
    rewrite Put_room by exact Hroom. unfold set_available.
    cbn [availableConnections busyConnections Elastic
         ReuseElasticClients ClientConfig trace].
    by rewrite <- app_assoc.
  - destruct (IsConnected env c); unfold log_if, emit;
      cbn [availableConnections busyConnections Elastic
           ReuseElasticClients ClientConfig trace];
      rewrite Put_room by exact Hroom; unfold set_available;
      cbn [availableConnections busyConnections Elastic
           ReuseElasticClients ClientConfig trace];
      [by rewrite app_nil_r | reflexivity].
Qed.

(** C5.  Without a binding for the inbound connection, [Disconnect] returns
    the client-not-found error and leaves the engine, both pools included,
    as it was.  With a backend client bound: when the engine is not
    elastic, or is elastic and reuses clients, the binding is removed, the
    backend is put in the available pool under its identifier and nil is
    returned, whatever the liveness check said: when the check fails, that
    is logged and nothing more; when the engine is elastic and does not
    reuse clients, the binding is removed, the available pool is untouched,
    the backend is not closed and the client-not-connected error is
    returned.  The put-back is stated for an available pool that, when
    bounded, has room for the backends of both pools. *)
Theorem C5_disconnect_by_cases env pr gconn :
  (Pool.entries (busyConnections pr) !! KConn gconn = None →
   Disconnect env pr gconn = Returned (Some ErrClientNotFound) pr)
  ∧ (∀ c,
       Pool.entries (busyConnections pr) !! KConn gconn = Some (VClient c) →
       Elastic pr = false ∨ ReuseElasticClients pr = true →
       has_room pr →
       ∃ pr',
         Disconnect env pr gconn = Returned None pr'
         ∧ Pool.entries (busyConnections pr')
           = delete (KConn gconn) (Pool.entries (busyConnections pr))
         ∧ Pool.entries (availableConnections pr')
           = <[KStr (ID c) := VClient c]> (Pool.entries (availableConnections pr))
         ∧ drop (length (trace pr)) (trace pr')
           = if IsExhausted pr
             then [LogError "No more available connections";
                   LogError "Failed to reconnect to the client"]
             else if IsConnected env c then []
                  else [LogError "Client is disconnected"])
  ∧ (∀ c,
       Pool.entries (busyConnections pr) !! KConn gconn = Some (VClient c) →
       Elastic pr = true → ReuseElasticClients pr = false →
       ∃ pr',
         Disconnect env pr gconn = Returned (Some ErrClientNotConnected) pr'
         ∧ Pool.entries (busyConnections pr')
           = delete (KConn gconn) (Pool.entries (busyConnections pr))
         ∧ availableConnections pr' = availableConnections pr
         ∧ trace pr' = trace pr).
Proof.
  split; [| split].
  - intros Hnone. unfold Disconnect, Pool.Pop. rewrite Hnone.
    rewrite delete_id by exact Hnone.
    by destruct pr as [? [? ?] ? ? ? ?].
  - intros c Hbound Hmode Hroom.
    rewrite (Disconnect_recycles_trace env pr gconn c Hbound Hmode
               (has_room_not_full pr _ _ Hroom Hbound)).
    eexists. split; [reflexivity |]. split; [reflexivity |].
    split; [reflexivity |]. cbn [trace]. by rewrite drop_app_length.
  - intros c Hbound Hel Hre. unfold Disconnect, Pool.Pop. rewrite Hbound.
    cbn [set_busy Elastic ReuseElasticClients]. rewrite Hel, Hre. cbn.
    eexists. split; [reflexivity |]. repeat split.
Qed.

(** No binding; a binding given back to a pool of capacity 1 whose liveness
    check fails, the pool being empty; a binding dropped by an elastic
    engine that does not reuse clients. *)
Lemma C5_disconnect_by_cases_witness :
  Disconnect Ex.quiet (Ex.engine0 1 false false) 7%nat
  = Returned (Some ErrClientNotFound) (Ex.engine0 1 false false)
  ∧ (∃ pr',
       Disconnect Ex.quiet (Ex.bound1 1 false false) 7%nat = Returned None pr'
       ∧ Pool.entries (busyConnections pr')
         = delete (KConn 7%nat)
             (Pool.entries (busyConnections (Ex.bound1 1 false false)))
       ∧ Pool.entries (availableConnections pr')
         = <[KStr (ID Ex.backend1) := VClient Ex.backend1]>
             (Pool.entries (availableConnections (Ex.bound1 1 false false)))
       ∧ drop (length (trace (Ex.bound1 1 false false))) (trace pr')
         = [LogError "No more available connections";
            LogError "Failed to reconnect to the client"])
  ∧ (∃ pr',
       Disconnect Ex.quiet (Ex.bound1 0 true false) 7%nat
       = Returned (Some ErrClientNotConnected) pr'
       ∧ Pool.entries (busyConnections pr')
         = delete (KConn 7%nat)
             (Pool.entries (busyConnections (Ex.bound1 0 true false)))
       ∧ availableConnections pr' = availableConnections (Ex.bound1 0 true false)
       ∧ trace pr' = trace (Ex.bound1 0 true false)).
Proof.
  split; [| split].
  - apply (C5_disconnect_by_cases Ex.quiet (Ex.engine0 1 false false) 7%nat).
    reflexivity.
  - destruct (C5_disconnect_by_cases Ex.quiet (Ex.bound1 1 false false) 7%nat)
      as (_ & Hback & _).
    apply (Hback Ex.backend1).
    + reflexivity.
    + left. reflexivity.
    + right. vm_compute. discriminate.
  - destruct (C5_disconnect_by_cases Ex.quiet (Ex.bound1 0 true false) 7%nat)
      as (_ & _ & Hsingle).
    apply (Hsingle Ex.backend1).
    + reflexivity.
    + reflexivity.
    + reflexivity.
Defined.

(** ** Facts about sequences of [Connect] and [Disconnect] *)

Lemma count_events_logs f t logs :
  (∀ msg, f (LogError msg) = false) → only_logs logs →
  count_events f (t ++ logs) = count_events f t.
Proof.
  intros Hf Hlogs. unfold count_events. rewrite List.filter_app, length_app.
  assert (List.filter f logs = []) as ->.
  { induction Hlogs as [|ev l Hev _ IH]; [reflexivity |].
    destruct ev; try discriminate Hev. cbn. by rewrite Hf. }
  cbn. by rewrite Nat.add_0_r.
Qed.

(** A [Connect] that returns nil has popped a backend and bound it. *)
Lemma Connect_returns_nil env pr g pr' :
  Pool.Cap (busyConnections pr) = EmptyPoolCapacity →
  Connect env pr g = Returned None pr' →
  ∃ c logs,
    only_logs logs
    ∧ Pool.entries (availableConnections pr) !! KStr (first_clientID env pr)
      = Some (VClient c)
    ∧ pr' = mkProxy
              (Pool.mk (Pool.cap (availableConnections pr))
                 (delete (KStr (first_clientID env pr))
                    (Pool.entries (availableConnections pr))))
              (Pool.mk (Pool.cap (busyConnections pr))
                 (<[KConn g := VClient c]> (Pool.entries (busyConnections pr))))
              (Elastic pr) (ReuseElasticClients pr) (ClientConfig pr)
              (trace pr ++ logs).
Proof.
  intros Hbusy H. destruct (IsExhausted pr) eqn:Hex.
  - apply IsExhausted_true in Hex as Hex'. destruct Hex' as (Hel & _).
    unfold Connect in H. rewrite Hex, Hel in H. discriminate.
  - rewrite Connect_not_exhausted in H by exact Hex.
    destruct (Pool.entries (availableConnections pr) !! _) as [[c|]|] eqn:Hlook.
    + match type of H with Connect_bind ?e ?p ?g' _ = _ =>
        destruct (Connect_bind_client e p g' c Hbusy) as (logs & Hlogs & Hb) end.
      rewrite Hb in H. destruct (short_id_ok c); [| discriminate].
      inversion H. eauto.
    + match type of H with Connect_bind ?e ?p ?g' _ = _ =>
        destruct (Connect_bind_nil e p g' Hbusy) as (eff & Hb) end.
      by rewrite Hb in H.
    + match type of H with Connect_bind ?e ?p ?g' _ = _ =>
        destruct (Connect_bind_nil e p g' Hbusy) as (eff & Hb) end.
      by rewrite Hb in H.
Qed.

Lemma Disconnect_unbound env pr gconn :
  Pool.entries (busyConnections pr) !! KConn gconn = None →
  Disconnect env pr gconn = Returned (Some ErrClientNotFound) pr.
Proof.
  intros Hnone. unfold Disconnect, Pool.Pop. rewrite Hnone.
  rewrite delete_id by exact Hnone.
  by destruct pr as [? [? ?] ? ? ? ?].
Qed.

Lemma Connect_keeps env pr g r pr' :
  well_formed pr →
  Pool.entries (busyConnections pr) !! KConn g = None →
  Connect env pr g = Returned r pr' →
  kept pr pr'.
Proof.
  intros Hwf Hfresh H.
  pose proof Hwf as (Hbusy & Hav & Hbu & Hid & Hcap).
  destruct r as [e|].
  - apply Connect_error in H as (_ & _ & ->); [| exact Hbusy].
    by repeat split.
  - apply Connect_returns_nil in H as (c & logs & Hlogs & Hlook & ->);
      [| exact Hbusy].
    set (k := KStr (first_clientID env pr)) in *.
    destruct (Hav k _ Hlook) as (c0 & Hk & [= <-]).
    assert (Pool.Size
              (Pool.mk (Pool.cap (availableConnections pr))
                 (delete k (Pool.entries (availableConnections pr))))
            = Pool.Size (availableConnections pr) - 1) as Hsa.
    { unfold Pool.Size. cbn [Pool.entries].
      rewrite map_size_delete, Hlook.
      pose proof (map_size_ne_0_lookup_2 _ k (mk_is_Some _ _ Hlook)). lia. }
    assert (Pool.Size
              (Pool.mk (Pool.cap (busyConnections pr))
                 (<[KConn g := VClient c]> (Pool.entries (busyConnections pr))))
            = Pool.Size (busyConnections pr) + 1) as Hsb.
    { unfold Pool.Size. cbn [Pool.entries].
      rewrite map_size_insert_None by exact Hfresh. lia. }
    unfold kept, well_formed, created, closed.
    cbn [availableConnections busyConnections Elastic ReuseElasticClients
         trace].
    rewrite Hsa, Hsb, !count_events_logs by done.
    split; [| repeat split; lia].
    split; [exact Hbusy |]. split; [| split; [| split]].
    + intros k' v Hk'. cbn [Pool.entries] in Hk'.
      apply lookup_delete_Some in Hk' as [_ Hk']. eauto.
    + intros k' v Hk'. cbn [Pool.entries] in Hk' |- *.
      apply lookup_insert_Some in Hk' as [[<- <-] | [Hne Hk']].
      * exists c. split; [reflexivity |]. rewrite <- Hk.
        apply lookup_delete_eq.
      * destruct (Hbu k' v Hk') as (c' & -> & Hc').
        exists c'. split; [reflexivity |].
        apply lookup_delete_None. auto.
    + intros k1 k2 c1 c2 H1 H2 Heq. cbn [Pool.entries] in H1, H2.
      apply lookup_insert_Some in H1 as [[<- [= <-]] | [Hne1 H1]];
        apply lookup_insert_Some in H2 as [[<- [= <-]] | [Hne2 H2]].
      * reflexivity.
      * destruct (Hbu k2 _ H2) as (c' & [= <-] & Hc').
        rewrite <- Heq, <- Hk in Hc'. congruence.
      * destruct (Hbu k1 _ H1) as (c' & [= <-] & Hc').
        rewrite Heq, <- Hk in Hc'. congruence.
      * eauto.
    + cbn [Pool.Cap Pool.cap]. unfold Pool.Cap in Hcap. lia.
Qed.

Lemma Disconnect_keeps env pr g r pr' :
  well_formed pr →
  Elastic pr = false ∨ ReuseElasticClients pr = true →
  Disconnect env pr g = Returned r pr' →
  kept pr pr'.
Proof.
  intros Hwf Hmode H.
  pose proof Hwf as (Hbusy & Hav & Hbu & Hid & Hcap).
  destruct (Pool.entries (busyConnections pr) !! KConn g) as [v|] eqn:Hlook.
  2: { rewrite Disconnect_unbound in H by exact Hlook.
       inversion H; subst. by repeat split. }
  destruct (Hbu _ _ Hlook) as (c & -> & Hc).
  assert (Pool.Size (busyConnections pr) >= 1) as Hsize.
  { unfold Pool.Size.
    pose proof (map_size_ne_0_lookup_2 _ _ (mk_is_Some _ _ Hlook)). lia. }
  assert (Pool.full (availableConnections pr) = false) as Hroom.
  { unfold Pool.full. apply andb_false_iff.
    rewrite !bool_decide_eq_false. unfold Pool.Cap in Hcap.
    pose proof (Size_nonneg (availableConnections pr)).
    destruct Hcap; [left | right]; lia. }
  destruct (Disconnect_recycles env pr g c Hlook Hmode Hroom)
    as (logs & Hlogs & Heq).
  rewrite Heq in H. inversion H; subst r pr'. clear H Heq.
  assert (Pool.Size
            (Pool.mk (Pool.cap (availableConnections pr))
               (<[KStr (ID c) := VClient c]>
                  (Pool.entries (availableConnections pr))))
          = Pool.Size (availableConnections pr) + 1) as Hsa.
  { unfold Pool.Size. cbn [Pool.entries].
    rewrite map_size_insert_None by exact Hc. lia. }
  assert (Pool.Size
            (Pool.mk (Pool.cap (busyConnections pr))
               (delete (KConn g) (Pool.entries (busyConnections pr))))
          = Pool.Size (busyConnections pr) - 1) as Hsb.
  { unfold Pool.Size in *. cbn [Pool.entries].
    rewrite map_size_delete, Hlook. lia. }
  unfold kept, well_formed, created, closed.
  cbn [availableConnections busyConnections Elastic ReuseElasticClients
       trace].
  rewrite Hsa, Hsb, !count_events_logs by done.
  split; [| repeat split; lia].
  split; [exact Hbusy |]. split; [| split; [| split]].
  - intros k' v Hk'. cbn [Pool.entries] in Hk'.
    apply lookup_insert_Some in Hk' as [[<- <-] | [_ Hk']]; eauto.
  - intros k' v Hk'. cbn [Pool.entries] in Hk' |- *.
    apply lookup_delete_Some in Hk' as [Hne Hk'].
    destruct (Hbu k' v Hk') as (c' & -> & Hc').
    exists c'. split; [reflexivity |].
    apply lookup_insert_None. split; [exact Hc' |].
    intros [= Heq]. apply Hne. symmetry. by apply (Hid k' (KConn g) c' c).
  - intros k1 k2 c1 c2 H1 H2. cbn [Pool.entries] in H1, H2.
    apply lookup_delete_Some in H1 as [_ H1].
    apply lookup_delete_Some in H2 as [_ H2]. eauto.
  - cbn [Pool.Cap Pool.cap]. unfold Pool.Cap in Hcap. lia.
Qed.

Lemma engine1_well_formed capacity elastic reuse :
  1 <= capacity → well_formed (Ex.engine1 capacity elastic reuse).
Proof.
  intros Hcap. split; [reflexivity |]. split; [| split; [| split]].
  - intros k v H. cbn in H. apply lookup_singleton_Some in H as [<- <-].
    by exists Ex.backend1.
  - intros k v H. cbn in H. by rewrite lookup_empty in H.
  - intros k1 k2 c1 c2 H. cbn in H. by rewrite lookup_empty in H.
  - right. unfold Pool.Size, Pool.Cap. cbn.
    rewrite map_size_singleton, map_size_empty. lia.
Qed.

(** C2, as the claim has it, fails for an elastic engine that does not
    reuse clients: after [Connect] and [Disconnect] of one inbound
    connection the backend is in neither pool and has not been closed. *)
Lemma C2_counterexample :
  balanced (Ex.engine1 1 true false)
  ∧ ∃ pr',
      run [(Ex.quiet, CallConnect 7%nat); (Ex.quiet, CallDisconnect 7%nat)]
        (Ex.engine1 1 true false) = Some pr'
      ∧ Pool.Size (availableConnections pr') + Pool.Size (busyConnections pr') = 0
      ∧ created pr' - closed pr' = 1
      ∧ ¬ balanced pr'.
Proof.
  split; [reflexivity |]. eexists. split; [vm_compute; reflexivity |].
  split; [reflexivity |]. split; [reflexivity |].
  unfold balanced. vm_compute. discriminate.
Qed.

(** C2, amended.  On an engine that is not elastic, or is elastic and
    reuses clients, and whose pools satisfy the invariants of the data model,
    every sequence of [Connect] and [Disconnect] calls, run one after the
    other, in which no call crashes and [Connect] is called only for
    inbound connections that are not bound, keeps the sum of the sizes of
    the two pools equal to the number of backends created minus the number
    closed. *)
Theorem C2_pool_sizes_balance calls pr pr'
    (Hwf : well_formed pr)
    (Hmode : Elastic pr = false ∨ ReuseElasticClients pr = true)
    (Horder : orderly calls pr)
    (Hbal : balanced pr)
    (Hrun : run calls pr = Some pr') :
  balanced pr'.
Proof.
  revert pr Hwf Hmode Horder Hbal Hrun.
  induction calls as [|[env c] rest IH]; intros pr Hwf Hmode Horder Hbal Hrun.
  - cbn in Hrun. by inversion Hrun; subst.
  - cbn [run] in Hrun. cbn [orderly] in Horder. destruct Horder as [Hfresh Hrest].
    destruct (call env pr c) as [r pr1|eff] eqn:Hcall; [| discriminate].
    assert (kept pr pr1) as (Hwf1 & Hel & Hre & Hsum & Hcr & Hcl).
    { destruct c as [g|g]; cbn [call] in Hcall.
      - by apply (Connect_keeps env pr g r).
      - by apply (Disconnect_keeps env pr g r). }
    apply (IH pr1); try done.
    + by rewrite Hel, Hre.
    + unfold balanced in *. rewrite Hsum, Hcr, Hcl. exact Hbal.
Qed.

Lemma C2_pool_sizes_balance_witness :
  ∃ pr',
    run [(Ex.quiet, CallConnect 7%nat); (Ex.quiet, CallDisconnect 7%nat)]
      (Ex.engine1 1 false false) = Some pr'
    ∧ balanced pr'.
Proof.
  eexists. split; [vm_compute; reflexivity |].
  apply (C2_pool_sizes_balance
           [(Ex.quiet, CallConnect 7%nat); (Ex.quiet, CallDisconnect 7%nat)]
           (Ex.engine1 1 false false)).
  - apply engine1_well_formed. lia.
  - left. reflexivity.
  - vm_compute. auto.
  - reflexivity.
  - vm_compute. reflexivity.
Defined.

(** ** Properties of network/utils.go *)

(** X1. What [trafficData] builds, [extractField] reads back.  Under any
    field name but ["error"] the map holds the slice as it was given, a nil
    slice as nil, and [extractField] gives it back, nil for nil, together
    with the text of the error ([""] for no error and for a
    [*GatewayDError]); under the field name ["error"] the slice is lost to
    the error text. *)
Theorem trafficData_extractField env g c (v : option bytes) e :
  let text :=
    match e with
    | ArgNil | ArgGatewayD _ => ""
    | ArgError typedErr => Error_string typedErr
    | ArgString s => s
    | ArgOther printed => printed
    end in
  (∀ f, f ≠ "error" →
        trafficData env g c f v e !! f = Some (ABytes v)
        ∧ extractField (Some (trafficData env g c f v e)) f = (v, text))
  ∧ (∀ f, trafficData env g c f v e !! "error" = Some (AString text))
  ∧ extractField (Some (trafficData env g c "error" v e)) "error" = (None, text).
Proof.
  intros text.
  assert (∀ f, trafficData env g c f v e !! "error" = Some (AString text)) as Herr.
  { intros f. unfold trafficData. destruct e; apply lookup_insert_eq. }
  split; [| split; [exact Herr |]].
  - intros f Hf.
    assert (trafficData env g c f v e !! f = Some (ABytes v)) as Hdata.
    { unfold trafficData.
      destruct e; rewrite !(lookup_insert_ne _ "error") by congruence;
        apply lookup_insert_eq. }
    split; [exact Hdata |].
    unfold extractField. rewrite Hdata, Herr.
    by case_bool_decide; [| destruct (decide (text = "")) as [->|]].
  - unfold extractField. rewrite Herr.
    by case_bool_decide; [| destruct (decide (text = "")) as [->|]].
Qed.

(** A slice comes back as given and a nil slice comes back nil. *)
Lemma trafficData_extractField_witness :
  extractField
    (Some (trafficData Ex.quiet 7%nat Ex.backend1 "request" (Some Ex.newRequest)
             (ArgError io_EOF))) "request"
  = (Some Ex.newRequest, "EOF")
  ∧ extractField
      (Some (trafficData Ex.quiet 7%nat Ex.backend1 "response" None
               (ArgGatewayD (Some Ex.receiveErr)))) "response"
    = (None, "").
Proof.
  split.
  - destruct (trafficData_extractField Ex.quiet 7%nat Ex.backend1
                (Some Ex.newRequest) (ArgError io_EOF)) as [Hback _].
    destruct (Hback "request") as [_ Hread]; [discriminate | exact Hread].
  - destruct (trafficData_extractField Ex.quiet 7%nat Ex.backend1 None
                (ArgGatewayD (Some Ex.receiveErr))) as [Hback _].
    destruct (Hback "response") as [_ Hread]; [discriminate | exact Hread].
Defined.

(** X2. [extractField] gives bytes exactly when the result is non-nil and
    holds a non-nil byte slice under the field name, and gives a non-empty
    error text exactly when the result holds that string under ["error"];
    values of other types are ignored. *)
Theorem extractField_exactly (r : option HookMap) (f : string) :
  (∀ b, (extractField r f).1 = Some b ↔
        ∃ result, r = Some result ∧ result !! f = Some (ABytes (Some b)))
  ∧ (∀ m, m ≠ "" →
          ((extractField r f).2 = m ↔
           ∃ result, r = Some result ∧ result !! "error" = Some (AString m))).
Proof.
  split.
  - intros b. destruct r as [result|]; cbn.
    + split.
      * destruct (result !! f) as [[| [b'|] | |]|] eqn:Hf; try discriminate.
        intros [= ->]. eauto.
      * intros (? & [= <-] & ->). reflexivity.
    + split; [discriminate | by intros (? & ? & _)].
  - intros m Hm. destruct r as [result|]; cbn.
    + split.
      * destruct (result !! "error") as [[s| | |]|] eqn:He;
          try (intros <-; by destruct Hm).
        case_bool_decide; [intros <-; eauto | intros <-; by destruct Hm].
      * intros (? & [= <-] & ->). by rewrite bool_decide_eq_true_2.
    + split; [intros <-; by destruct Hm | by intros (? & ? & _)].
Qed.

Lemma family_of_supported network :
  network ∈ ["tcp"; "tcp4"; "tcp6"; "udp"; "udp4"; "udp6";
             "unix"; "unixgram"; "unixpacket"] →
  family_of network ≠ Unsupported.
Proof.
  rewrite !elem_of_cons, elem_of_nil.
  intros [->|[->|[->|[->|[->|[->|[->|[->|[->|[]]]]]]]]]]; vm_compute;
    discriminate.
Qed.

Lemma family_of_unsupported network :
  network ∉ ["tcp"; "tcp4"; "tcp6"; "udp"; "udp4"; "udp6";
             "unix"; "unixgram"; "unixpacket"] →
  family_of network = Unsupported.
Proof.
  intros H. unfold family_of.
  rewrite !bool_decide_eq_false_2
    by (intros ->; apply H; rewrite !elem_of_cons; auto 12).
  reflexivity.
Qed.

Lemma family_of_names network :
  (network ∈ ["tcp"; "tcp4"; "tcp6"] → family_of network = TCP)
  ∧ (network ∈ ["udp"; "udp4"; "udp6"] → family_of network = UDP)
  ∧ (network ∈ ["unix"; "unixgram"; "unixpacket"] → family_of network = Unix).
Proof.
  rewrite !elem_of_cons, !elem_of_nil.
  split; [| split]; intros [->|[->|[->|[]]]]; vm_compute; reflexivity.
Qed.

(** X3. [Resolve] never returns an address together with an error.  For a
    network name outside its nine it returns the network-not-supported
    error, logs it, and asks no resolver.  For tcp, tcp4 and tcp6 it
    returns what the TCP resolver says, for udp, udp4 and udp6 what the UDP
    resolver says, and for unix, unixgram and unixpacket what the Unix
    resolver says: the printed address with a nil error, or the
    resolve-failed error wrapping the error of that resolver. *)
Theorem Resolve_outcomes net network address :
  let supported :=
    ["tcp"; "tcp4"; "tcp6"; "udp"; "udp4"; "udp6";
     "unix"; "unixgram"; "unixpacket"] in
  let out := Resolve net network address in
  let answered (answer : string + GoError) :=
    match answer with
    | inl addr => out = (addr, None, [])
    | inr err => out = ("", Some (Wrap ErrResolveFailed (Some err)), [])
    end in
  (is_Some out.1.2 → out.1.1 = "")
  ∧ (out.1.2 = Some ErrNetworkNotSupported ↔ network ∉ supported)
  ∧ (network ∉ supported →
     out = ("", Some ErrNetworkNotSupported,
            [LogError "Network is not supported"])
     ∧ ∀ net', Resolve net' network address = out)
  ∧ (network ∈ ["tcp"; "tcp4"; "tcp6"] →
     answered (ResolveTCPAddr net network address))
  ∧ (network ∈ ["udp"; "udp4"; "udp6"] →
     answered (ResolveUDPAddr net network address))
  ∧ (network ∈ ["unix"; "unixgram"; "unixpacket"] →
     answered (ResolveUnixAddr net network address)).
Proof.
  intros supported out answered.
  destruct (family_of_names network) as (Htcp & Hudp & Hunix).
  assert (∀ r, (is_Some (resolved r).1.2 → (resolved r).1.1 = "")
               ∧ (resolved r).1.2 ≠ Some ErrNetworkNotSupported) as Hres.
  { intros [addr|err]; cbn; (split; [by intros [? [=]] | done]). }
  assert (∀ r, out = resolved r → answered r) as Hans.
  { intros r Hr. unfold answered. rewrite Hr. by destruct r. }
  assert (network ∈ ["tcp"; "tcp4"; "tcp6"] →
          out = resolved (ResolveTCPAddr net network address)) as Htcp'.
  { intros Hin. subst out. unfold Resolve. by rewrite (Htcp Hin). }
  assert (network ∈ ["udp"; "udp4"; "udp6"] →
          out = resolved (ResolveUDPAddr net network address)) as Hudp'.
  { intros Hin. subst out. unfold Resolve. by rewrite (Hudp Hin). }
  assert (network ∈ ["unix"; "unixgram"; "unixpacket"] →
          out = resolved (ResolveUnixAddr net network address)) as Hunix'.
  { intros Hin. subst out. unfold Resolve. by rewrite (Hunix Hin). }
  assert (network ∉ supported →
          ∀ net', Resolve net' network address
                  = ("", Some ErrNetworkNotSupported,
                     [LogError "Network is not supported"])) as Hnone.
  { intros Hout net'. unfold Resolve.
    by rewrite (family_of_unsupported network Hout). }
  assert (network ∈ supported → ∃ r, out = resolved r) as Hsome.
  { unfold supported. rewrite !elem_of_cons, elem_of_nil.
    intros [H|[H|[H|[H|[H|[H|[H|[H|[H|[]]]]]]]]]];
      first [ exists (ResolveTCPAddr net network address); apply Htcp';
              rewrite !elem_of_cons; by auto
            | exists (ResolveUDPAddr net network address); apply Hudp';
              rewrite !elem_of_cons; by auto
            | exists (ResolveUnixAddr net network address); apply Hunix';
              rewrite !elem_of_cons; by auto ]. }
  split; [| split; [| split; [| split; [| split]]]].
  - destruct (decide (network ∈ supported)) as [Hin|Hout].
    + destruct (Hsome Hin) as [r ->]. apply Hres.
    + subst out. by rewrite (Hnone Hout net).
  - split.
    + intros Herr Hin. destruct (Hsome Hin) as [r Hr]. rewrite Hr in Herr.
      by apply (Hres r).
    + intros Hout. subst out. by rewrite (Hnone Hout net).
  - intros Hout. split; [exact (Hnone Hout net) |].
    intros net'. subst out. by rewrite !(Hnone Hout).
  - intros Hin. by apply Hans, Htcp'.
  - intros Hin. by apply Hans, Hudp'.
  - intros Hin. by apply Hans, Hunix'.
Qed.

(** Three resolvers that give different answers: each family gets the
    answer of its own. *)
Lemma Resolve_outcomes_witness :
  let net :=
    mkResolvers (λ _ address, inl ("tcp:" +:+ address))
      (λ _ address, inl ("udp:" +:+ address))
      (λ _ _, inr (ErrorString "no such socket")) in
  Resolve net "tcp4" "localhost:5432" = ("tcp:localhost:5432", None, [])
  ∧ Resolve net "udp" "localhost:5432" = ("udp:localhost:5432", None, [])
  ∧ Resolve net "unixgram" "/tmp/db.sock"
    = ("", Some (Wrap ErrResolveFailed (Some (ErrorString "no such socket"))), []).
Proof.
  intros net. split; [| split].
  - destruct (Resolve_outcomes net "tcp4" "localhost:5432")
      as (_ & _ & _ & Htcp & _).
    apply Htcp. rewrite !elem_of_cons. auto.
  - destruct (Resolve_outcomes net "udp" "localhost:5432")
      as (_ & _ & _ & _ & Hudp & _).
    apply Hudp. rewrite !elem_of_cons. auto.
  - destruct (Resolve_outcomes net "unixgram" "/tmp/db.sock")
      as (_ & _ & _ & _ & _ & Hunix).
    apply Hunix. rewrite !elem_of_cons. auto.
Defined.

Lemma hex_EncodeToString_length src :
  String.length (hex_EncodeToString src) = (2 * length src)%nat.
Proof. induction src as [|b rest IH]; cbn; [reflexivity | rewrite IH; lia]. Qed.

Lemma hex_digits_of_byte b :
  is_hex (hex_digit (Byte.to_nat b / 16)) = true
  ∧ is_hex (hex_digit (Byte.to_nat b mod 16)) = true.
Proof. destruct b; vm_compute; split; reflexivity. Qed.

Lemma hex_EncodeToString_digits src :
  Forall (λ ch, is_hex ch = true)
    (String.list_ascii_of_string (hex_EncodeToString src)).
Proof.
  induction src as [|b rest IH]; cbn; [constructor |].
  destruct (hex_digits_of_byte b). by repeat constructor.
Qed.

(** X4. With a digest of 32 bytes, as SHA-256 gives, an identifier made by
    [GetID] is 64 lower-case hexadecimal digits, so the 7-byte prefix that
    [Connect] takes of a client's identifier is in range. *)
Theorem GetID_is_64_hex_digits (sum256 : string → bytes) network address seed
    (Hsum : ∀ s, length (sum256 s) = 32%nat) :
  String.length (GetID sum256 network address seed) = 64%nat
  ∧ Forall (λ ch, is_hex ch = true)
      (String.list_ascii_of_string (GetID sum256 network address seed))
  ∧ ∀ c, ID c = GetID sum256 network address seed → short_id_ok c = true.
Proof.
  assert (String.length (GetID sum256 network address seed) = 64%nat) as Hlen.
  { unfold GetID. by rewrite hex_EncodeToString_length, Hsum. }
  split; [exact Hlen |]. split; [apply hex_EncodeToString_digits |].
  intros c Hc. unfold short_id_ok. apply bool_decide_eq_true. rewrite Hc, Hlen.
  lia.
Qed.

Lemma GetID_is_64_hex_digits_witness :
  String.length (GetID (λ _, replicate 32 x00%byte) "tcp" "localhost:5432" 1000)
  = 64%nat.
Proof.
  apply (GetID_is_64_hex_digits (λ _, replicate 32 x00%byte) "tcp"
           "localhost:5432" 1000).
  intros s. reflexivity.
Defined.

Lemma string_app_assoc (s1 s2 s3 : string) :
  (s1 +:+ s2) +:+ s3 = s1 +:+ (s2 +:+ s3).
Proof.
  induction s1 as [|a s1 IH]; [reflexivity |].
  change (String a ((s1 +:+ s2) +:+ s3) = String a (s1 +:+ (s2 +:+ s3))).
  by rewrite IH.
Qed.

(** X5. [GetID] formats the address and the seed with nothing between
    them, so a digit can move from the seed to the address: the address
    followed by a digit [d], with a one-digit seed [s], has the identifier of
    the address alone with seed [10 * d + s]. *)
Theorem GetID_digit_moves (sum256 : string → bytes) network address d s
    (Hd : 1 <= d <= 9) (Hs : 0 <= s <= 9) :
  GetID sum256 network (address +:+ decimal d) s
  = GetID sum256 network address (10 * d + s).
Proof.
  assert (decimal d +:+ decimal s = decimal (10 * d + s)) as Hdec.
  { assert (d = 1 ∨ d = 2 ∨ d = 3 ∨ d = 4 ∨ d = 5 ∨ d = 6 ∨ d = 7 ∨ d = 8
            ∨ d = 9) as Hdc by lia.
    assert (s = 0 ∨ s = 1 ∨ s = 2 ∨ s = 3 ∨ s = 4 ∨ s = 5 ∨ s = 6 ∨ s = 7
            ∨ s = 8 ∨ s = 9) as Hsc by lia.
    clear Hd Hs.
    repeat (destruct Hdc as [->|Hdc]); try subst d;
      repeat (destruct Hsc as [->|Hsc]); try subst s; reflexivity. }
  unfold GetID. by rewrite !string_app_assoc, Hdec.
Qed.

Lemma GetID_digit_moves_witness :
  GetID (λ s, replicate (String.length s) x00%byte) "tcp" "localhost:543" 21
  = GetID (λ s, replicate (String.length s) x00%byte) "tcp" "localhost:5432" 1.
Proof.
  symmetry.
  apply (GetID_digit_moves (λ s, replicate (String.length s) x00%byte) "tcp"
           "localhost:543" 2 1); lia.
Defined.

(** ** What a returning [PassThrough] did *)

(** With a backend bound and the busy pool of [NewProxy], a [PassThrough]
    that returns has gone through every step; this lemma names what each
    step saw and left. *)
Lemma PassThrough_returned env pr g client r pr' :
  Pool.entries (busyConnections pr) !! KConn g = Some (VClient client) →
  Pool.Cap (busyConnections pr) = EmptyPoolCapacity →
  PassThrough env pr g = Returned r pr' →
  let got := Receive env client in
  ∃ logs0 logs1 logs2 logs3 logs4 mid c2 body,
    only_logs logs0 ∧ only_logs logs1 ∧ only_logs logs2
    ∧ only_logs logs3 ∧ only_logs logs4
    ∧ slice_to got.1.2 got.1.1 = Some body
    ∧ ((backend_closed got.1.1 got.2 = false ∧ mid = [] ∧ c2 = client
        ∧ busyConnections pr' = busyConnections pr)
       ∨ (backend_closed got.1.1 got.2 = true
          ∧ mid = [ClientClosed client; Created (Some c2)]
          ∧ (∃ cfg, ClientConfig pr = Some cfg
                    ∧ NewClient env (Network cfg) (Address cfg)
                        (ReceiveBufferSize cfg) (ReceiveChunkSize cfg)
                        (ReceiveDeadline cfg) (SendDeadline cfg) = Some c2)
          ∧ busyConnections pr'
            = Pool.mk (Pool.cap (busyConnections pr))
                (<[KConn g := VClient c2]> (Pool.entries (busyConnections pr)))))
    ∧ availableConnections pr' = availableConnections pr
    ∧ Elastic pr' = Elastic pr
    ∧ ReuseElasticClients pr' = ReuseElasticClients pr
    ∧ ClientConfig pr' = ClientConfig pr
    ∧ let ingress :=
        trafficData env g client "request" (Next env g).1
          (arg_of_error (Next env g).2) in
      let egress := trafficData env g c2 "response" body (ArgGatewayD got.2) in
      let out := superseded (Run env egress OnEgressTraffic).1 "response" body in
      trace pr'
      = trace pr
        ++ (logs0 ++ [HookRun OnIngressTraffic ingress] ++ logs1
            ++ [Sent client (request_sent env g client)] ++ logs2
            ++ [ReceiveCalled client])
        ++ mid
        ++ [HookRun OnEgressTraffic egress] ++ logs3
        ++ [WriteSubmitted g out] ++ logs4
      ∧ r = match AsyncWrite env g out with
            | Some _ =>
                Some (Wrap ErrServerSendFailed
                        (as_error <$> (Run env egress OnEgressTraffic).2))
            | None => None
            end.
Proof.
  intros Hbound Hbusy H got.
  destruct (PassThrough_bound env pr g client Hbound)
    as (l0 & l1 & l2 & H0 & H1 & H2 & Hpt).
  fold got in Hpt. rewrite Hpt in H. clear Hpt.
  destruct (backend_closed got.1.1 got.2) eqn:Hclosed.
  - apply backend_closed_true in Hclosed as Hc. destruct Hc as (Hzero & _).
    unfold PassThrough_reconnect in H. rewrite Hclosed in H.
    cbn zeta in H. cbn [ClientConfig emit add_events] in H.
    destruct (ClientConfig pr) as [cfg|] eqn:Hcfg; [| discriminate].
    destruct (NewClient env _ _ _ _ _ _) as [c2|] eqn:Hnew.
    2: { cbn [set_busy busyConnections] in H.
         rewrite full_unbounded in H by exact Hbusy. discriminate. }
    cbn [set_busy busyConnections] in H.
    rewrite Put_unbounded in H by exact Hbusy.
    cbn [Pool.cap Pool.entries Pool.Remove] in H.
    rewrite Hzero in H |- *.
    match type of H with PassThrough_reply ?e0 ?p ?g0 ?c0 ?n0 ?r0 ?er0 = _ =>
      destruct (PassThrough_reply_returns e0 p g0 c0 n0 r0 er0 _ (slice_to_0 _))
        as (k1 & k2 & Hk1 & Hk2 & Hreply)
    end.
    rewrite Hreply in H. clear Hreply.
    apply Returned_inj in H as [<- <-].
    exists l0, l1, l2, k1, k2, [ClientClosed client; Created (Some c2)], c2,
      (match got.1.2 with Some _ => Some [] | None => None end).
    repeat (split; [done |]).
    split; [apply slice_to_0 |].
    split.
    { right. split; [done |]. split; [done |]. split; [eauto |].
      cbn [busyConnections set_busy add_events]. by rewrite insert_delete_eq. }
    repeat (split; [reflexivity |]).
    split; [cbn [ClientConfig add_events set_busy emit]; exact Hcfg |].
    split; [| reflexivity].
    cbn [trace add_events set_busy emit].
    repeat (rewrite <- app_assoc || rewrite <- app_comm_cons). reflexivity.
  - rewrite PassThrough_reconnect_open in H by exact Hclosed.
    destruct (slice_to got.1.2 got.1.1) as [body|] eqn:Hs.
    2: { rewrite PassThrough_reply_panics in H by exact Hs. discriminate. }
    match type of H with PassThrough_reply ?e0 ?p ?g0 ?c0 ?n0 ?r0 ?er0 = _ =>
      destruct (PassThrough_reply_returns e0 p g0 c0 n0 r0 er0 body Hs)
        as (k1 & k2 & Hk1 & Hk2 & Hreply)
    end.
    rewrite Hreply in H. clear Hreply.
    apply Returned_inj in H as [<- <-].
    exists l0, l1, l2, k1, k2, [], client, body.
    repeat (split; [done |]).
    split; [left; by repeat split |].
    repeat (split; [reflexivity |]).
    split; [| reflexivity].
    cbn [trace add_events].
    repeat (rewrite <- app_assoc || rewrite <- app_comm_cons). reflexivity.
Qed.

Lemma without_logs_app l1 l2 :
  without_logs (l1 ++ l2) = without_logs l1 ++ without_logs l2.
Proof. apply List.filter_app. Qed.

Lemma without_logs_only_logs l : only_logs l → without_logs l = [].
Proof.
  induction 1 as [|ev l Hev _ IH]; [reflexivity |].
  cbn. by rewrite Hev.
Qed.

Lemma count_events_app f l1 l2 :
  count_events f (l1 ++ l2) = count_events f l1 + count_events f l2.
Proof. unfold count_events. rewrite List.filter_app, length_app. lia. Qed.


(** X6. With the busy pool of [NewProxy], what [PassThrough] returns
    depends on the binding and on the final write alone: client-not-found
    without a binding and cast-failed for a binding that is not a backend
    client, both before any effect; with a backend bound, one write is
    submitted, and the result is nil when it is accepted and the
    server-send-failed error when it is refused, whatever errors the read,
    the hooks, the send and the receive gave. *)
Theorem PassThrough_results env pr g r pr'
    (Hbusy : Pool.Cap (busyConnections pr) = EmptyPoolCapacity)
    (Hcall : PassThrough env pr g = Returned r pr') :
  match Pool.entries (busyConnections pr) !! KConn g with
  | None => r = Some ErrClientNotFound ∧ pr' = pr
  | Some (VOther _) => r = Some ErrCastFailed ∧ pr' = pr
  | Some (VClient client) =>
      ∃ out,
        WriteSubmitted g out ∈ drop (length (trace pr)) (trace pr')
        ∧ (∀ g' d, WriteSubmitted g' d ∈ drop (length (trace pr)) (trace pr') →
                   g' = g ∧ d = out)
        ∧ (AsyncWrite env g out = None → r = None)
        ∧ (AsyncWrite env g out ≠ None →
           ∃ cause, r = Some (Wrap ErrServerSendFailed cause))
  end.
Proof.
  destruct (Pool.entries (busyConnections pr) !! KConn g) as [[client|n]|] eqn:Hb.
  - destruct (PassThrough_returned env pr g client r pr' Hb Hbusy Hcall)
      as (l0 & l1 & l2 & l3 & l4 & mid & c2 & body & H0 & H1 & H2 & H3 & H4
          & _ & Hmid & _ & _ & _ & _ & Htrace & Hr).
    cbn zeta in Htrace, Hr. eexists. rewrite Htrace, drop_app_length.
    split; [rewrite !elem_of_app, !elem_of_cons; auto 15 |].
    split; [| split].
    + intros g' d Hin.
      destruct Hmid as [(_ & -> & _) | (_ & -> & _)];
        event_cases Hin; by inversion Hin.
    + intros Hw. by rewrite Hw in Hr.
    + intros Hw. rewrite Hr. destruct (AsyncWrite env g _); [eauto | done].
  - unfold PassThrough, Pool.Get in Hcall. rewrite Hb in Hcall.
    by apply Returned_inj in Hcall as [<- <-].
  - unfold PassThrough, Pool.Get in Hcall. rewrite Hb in Hcall.
    by apply Returned_inj in Hcall as [<- <-].
Qed.

Lemma PassThrough_results_witness :
  ∃ pr',
    PassThrough Ex.failing_write (Ex.bound1 0 false false) 7%nat
    = Returned (Some (Wrap ErrServerSendFailed (Some (as_error Ex.hookErr)))) pr'
    ∧ ∃ out cause,
        AsyncWrite Ex.failing_write 7%nat out ≠ None
        ∧ Some (Wrap ErrServerSendFailed (Some (as_error Ex.hookErr)))
          = Some (Wrap ErrServerSendFailed cause).
Proof.
  eexists. split; [vm_compute; reflexivity |].
  match goal with |- context [Wrap ErrServerSendFailed (Some ?c)] =>
    set (e := Wrap ErrServerSendFailed (Some c)) end.
  assert (∃ pr', PassThrough Ex.failing_write (Ex.bound1 0 false false) 7%nat
                 = Returned (Some e) pr') as [pr' Hcall]
    by (eexists; vm_compute; reflexivity).
  pose proof (PassThrough_results Ex.failing_write (Ex.bound1 0 false false)
                7%nat (Some e) pr' eq_refl Hcall) as H.
  destruct H as (out & _ & _ & _ & Hrefused).
  exists out. destruct (Hrefused ltac:(discriminate)) as [cause Hcause].
  exists cause. split; [discriminate | exact Hcause].
Defined.

(** X7. A [PassThrough] that returns with a backend bound has, log lines
    apart, run the ingress hooks, sent once, received once, replaced the
    backend or not, run the egress hooks and submitted one write, in that
    order and nothing else. *)
Theorem PassThrough_step_order env pr g client r pr'
    (Hbound : Pool.entries (busyConnections pr) !! KConn g = Some (VClient client))
    (Hbusy : Pool.Cap (busyConnections pr) = EmptyPoolCapacity)
    (Hcall : PassThrough env pr g = Returned r pr') :
  ∃ ingress egress out replaced,
    without_logs (drop (length (trace pr)) (trace pr'))
    = [HookRun OnIngressTraffic ingress;
       Sent client (request_sent env g client);
       ReceiveCalled client]
      ++ replaced
      ++ [HookRun OnEgressTraffic egress; WriteSubmitted g out]
    ∧ (replaced = [] ∨ ∃ c2, replaced = [ClientClosed client; Created (Some c2)]).
Proof.
  destruct (PassThrough_returned env pr g client r pr' Hbound Hbusy Hcall)
    as (l0 & l1 & l2 & l3 & l4 & mid & c2 & body & H0 & H1 & H2 & H3 & H4
        & _ & Hmid & _ & _ & _ & _ & Htrace & _).
  cbn zeta in Htrace. rewrite Htrace, drop_app_length.
  eexists _, _, _, mid. split.
  - rewrite !without_logs_app.
    rewrite (without_logs_only_logs l0), (without_logs_only_logs l1),
      (without_logs_only_logs l2), (without_logs_only_logs l3),
      (without_logs_only_logs l4) by done.
    assert (without_logs mid = mid) as ->
      by (destruct Hmid as [(_ & -> & _) | (_ & -> & _)]; reflexivity).
    cbn [without_logs List.filter is_log negb app]. reflexivity.
  - destruct Hmid as [(_ & -> & _) | (_ & -> & _)]; eauto.
Qed.

Lemma PassThrough_step_order_witness :
  ∃ pr' ingress egress out replaced,
    PassThrough Ex.backend_gone (Ex.bound1 0 false false) 7%nat = Returned None pr'
    ∧ without_logs (drop (length (trace (Ex.bound1 0 false false))) (trace pr'))
      = [HookRun OnIngressTraffic ingress;
         Sent Ex.backend1 (request_sent Ex.backend_gone 7%nat Ex.backend1);
         ReceiveCalled Ex.backend1]
        ++ replaced
        ++ [HookRun OnEgressTraffic egress; WriteSubmitted 7%nat out].
Proof.
  assert (∃ pr', PassThrough Ex.backend_gone (Ex.bound1 0 false false) 7%nat
                 = Returned None pr') as [pr' Hcall]
    by (eexists; vm_compute; reflexivity).
  destruct (PassThrough_step_order Ex.backend_gone (Ex.bound1 0 false false)
              7%nat Ex.backend1 None pr' eq_refl eq_refl Hcall)
    as (ingress & egress & out & replaced & Horder & _).
  exists pr', ingress, egress, out, replaced. split; [exact Hcall | exact Horder].
Defined.

(** A returning [PassThrough] leaves the available pool and the size of
    the busy pool as they were. *)
Lemma PassThrough_keeps_pools env pr g r pr' :
  Pool.Cap (busyConnections pr) = EmptyPoolCapacity →
  PassThrough env pr g = Returned r pr' →
  availableConnections pr' = availableConnections pr
  ∧ Pool.Size (busyConnections pr') = Pool.Size (busyConnections pr).
Proof.
  intros Hbusy Hcall.
  destruct (Pool.entries (busyConnections pr) !! KConn g) as [[client|n]|] eqn:Hb.
  - destruct (PassThrough_returned env pr g client r pr' Hb Hbusy Hcall)
      as (l0 & l1 & l2 & l3 & l4 & mid & c2 & body & _ & _ & _ & _ & _
          & _ & Hmid & Hav & _).
    split; [exact Hav |].
    destruct Hmid as [(_ & _ & _ & ->) | (_ & _ & _ & ->)]; [done |].
    unfold Pool.Size. cbn [Pool.entries]. by rewrite map_size_insert_Some.
  - unfold PassThrough, Pool.Get in Hcall. rewrite Hb in Hcall.
    by apply Returned_inj in Hcall as [_ <-].
  - unfold PassThrough, Pool.Get in Hcall. rewrite Hb in Hcall.
    by apply Returned_inj in Hcall as [_ <-].
Qed.

(** X8. A [PassThrough] that returns leaves the available pool, the mode
    and the template as they were, keeps the size of the busy pool and
    every binding of another inbound connection, and changes the binding
    of its own connection only when the backend had closed. *)
Theorem PassThrough_frame env pr g r pr'
    (Hbusy : Pool.Cap (busyConnections pr) = EmptyPoolCapacity)
    (Hcall : PassThrough env pr g = Returned r pr') :
  availableConnections pr' = availableConnections pr
  ∧ Elastic pr' = Elastic pr
  ∧ ReuseElasticClients pr' = ReuseElasticClients pr
  ∧ ClientConfig pr' = ClientConfig pr
  ∧ Pool.Cap (busyConnections pr') = Pool.Cap (busyConnections pr)
  ∧ Pool.Size (busyConnections pr') = Pool.Size (busyConnections pr)
  ∧ (∀ k, k ≠ KConn g →
          Pool.entries (busyConnections pr') !! k
          = Pool.entries (busyConnections pr) !! k)
  ∧ (∀ client,
       Pool.entries (busyConnections pr) !! KConn g = Some (VClient client) →
       backend_closed (Receive env client).1.1 (Receive env client).2 = false →
       busyConnections pr' = busyConnections pr).
Proof.
  destruct (Pool.entries (busyConnections pr) !! KConn g) as [[client|n]|] eqn:Hb.
  - destruct (PassThrough_returned env pr g client r pr' Hb Hbusy Hcall)
      as (l0 & l1 & l2 & l3 & l4 & mid & c2 & body & _ & _ & _ & _ & _
          & _ & Hmid & Hav & Hel & Hre & Hcfg & _).
    repeat (split; [done |]).
    destruct Hmid as [(Hopen & _ & _ & ->) | (Hclosed & _ & _ & ->)].
    + by repeat split.
    + split; [done |]. split; [| split].
      * unfold Pool.Size. cbn [Pool.entries].
        by rewrite map_size_insert_Some.
      * intros k Hk. cbn [Pool.entries]. by rewrite lookup_insert_ne.
      * intros ? [= <-] Hopen. congruence.
  - unfold PassThrough, Pool.Get in Hcall. rewrite Hb in Hcall.
    apply Returned_inj in Hcall as [_ <-]. by repeat split.
  - unfold PassThrough, Pool.Get in Hcall. rewrite Hb in Hcall.
    apply Returned_inj in Hcall as [_ <-]. by repeat split.
Qed.

Lemma PassThrough_frame_witness :
  ∃ pr',
    PassThrough Ex.backend_gone (Ex.bound1 0 false false) 7%nat = Returned None pr'
    ∧ availableConnections pr' = availableConnections (Ex.bound1 0 false false)
    ∧ Pool.Size (busyConnections pr')
      = Pool.Size (busyConnections (Ex.bound1 0 false false)).
Proof.
  assert (∃ pr', PassThrough Ex.backend_gone (Ex.bound1 0 false false) 7%nat
                 = Returned None pr') as [pr' Hcall]
    by (eexists; vm_compute; reflexivity).
  destruct (PassThrough_frame Ex.backend_gone (Ex.bound1 0 false false) 7%nat
              None pr' eq_refl Hcall) as (Hav & _ & _ & _ & _ & Hsize & _).
  exists pr'. split; [exact Hcall |]. split; [exact Hav | exact Hsize].
Defined.



Lemma HookRun_both h p h' p' : HookRun h p = HookRun h' p' → h = h' ∧ p = p'.
Proof. by intros [= -> ->]. Qed.

(** A returning [PassThrough] with a backend bound has run the egress
    hooks. *)
Lemma PassThrough_step_order_events env pr g client r pr' :
  Pool.entries (busyConnections pr) !! KConn g = Some (VClient client) →
  Pool.Cap (busyConnections pr) = EmptyPoolCapacity →
  PassThrough env pr g = Returned r pr' →
  ∃ payload,
    HookRun OnEgressTraffic payload ∈ drop (length (trace pr)) (trace pr').
Proof.
  intros Hbound Hbusy Hcall.
  destruct (PassThrough_returned env pr g client r pr' Hbound Hbusy Hcall)
    as (l0 & l1 & l2 & l3 & l4 & mid & c2 & body & _ & _ & _ & _ & _
        & _ & _ & _ & _ & _ & _ & Htrace & _).
  cbn zeta in Htrace. rewrite Htrace, drop_app_length. eexists.
  rewrite !elem_of_app, !elem_of_cons. auto 15.
Qed.

(** X10. What the hooks are shown.  The ingress hooks get the slice that
    was read, as it was read, under ["request"], with the text of a read
    error under ["error"].  The egress hooks get the received slice cut at
    the received count under ["response"], a nil slice when nil was
    received, and an empty ["error"] even when the receive failed: the
    receive error is a [*GatewayDError], which [trafficData] skips. *)
Theorem PassThrough_hook_payloads env pr g client r pr'
    (Hbound : Pool.entries (busyConnections pr) !! KConn g = Some (VClient client))
    (Hbusy : Pool.Cap (busyConnections pr) = EmptyPoolCapacity)
    (Hcall : PassThrough env pr g = Returned r pr') :
  ∀ h payload,
    HookRun h payload ∈ drop (length (trace pr)) (trace pr') →
    match h with
    | OnIngressTraffic =>
        payload !! "request" = Some (ABytes (Next env g).1)
        ∧ (∀ msg, (Next env g).2 = Some (ErrorString msg) →
                  payload !! "error" = Some (AString msg))
        ∧ ((Next env g).2 = None → payload !! "error" = Some (AString ""))
    | OnEgressTraffic =>
        payload !! "error" = Some (AString "")
        ∧ (∃ body,
             slice_to (Receive env client).1.2 (Receive env client).1.1 = Some body
             ∧ payload !! "response" = Some (ABytes body))
        ∧ ((Receive env client).1.2 = None →
           payload !! "response" = Some (ABytes None))
    end.
Proof.
  destruct (PassThrough_returned env pr g client r pr' Hbound Hbusy Hcall)
    as (l0 & l1 & l2 & l3 & l4 & mid & c2 & body & H0 & H1 & H2 & H3 & H4
        & Hbody & Hmid & _ & _ & _ & _ & Htrace & _).
  cbn zeta in Htrace. rewrite Htrace, drop_app_length.
  intros h payload Hin.
  assert (Forall (λ ev, is_lifecycle ev = true) mid) as Hlife
    by (destruct Hmid as [(_ & -> & _) | (_ & -> & _)]; by repeat constructor).
  clear Hmid Htrace.
  event_cases Hin.
  - apply HookRun_both in Hin as [-> ->].
    split; [| split].
    + unfold trafficData.
      destruct (arg_of_error (Next env g).2);
        rewrite !(lookup_insert_ne _ "error") by done; apply lookup_insert_eq.
    + intros msg Hmsg. rewrite Hmsg. cbn. apply lookup_insert_eq.
    + intros Hnone. rewrite Hnone. cbn. apply lookup_insert_eq.
  - apply HookRun_both in Hin as [-> ->].
    assert (trafficData env g c2 "response" body
              (ArgGatewayD (Receive env client).2) !! "response"
            = Some (ABytes body)) as Hfield.
    { unfold trafficData. rewrite (lookup_insert_ne _ "error") by done.
      apply lookup_insert_eq. }
    split; [apply lookup_insert_eq |]. split; [eauto |].
    intros Hnil. rewrite Hfield. rewrite Hnil in Hbody. cbn in Hbody.
    case_bool_decide; [| discriminate]. by inversion Hbody.
Qed.

(** The backend has closed and gave no buffer: the egress hooks are shown
    a nil slice and no error. *)
Lemma PassThrough_hook_payloads_witness :
  ∃ pr' payload,
    PassThrough Ex.backend_gone (Ex.bound1 0 false false) 7%nat = Returned None pr'
    ∧ HookRun OnEgressTraffic payload
        ∈ drop (length (trace (Ex.bound1 0 false false))) (trace pr')
    ∧ (Receive Ex.backend_gone Ex.backend1).2 = Some Ex.receiveErr
    ∧ payload !! "error" = Some (AString "")
    ∧ payload !! "response" = Some (ABytes None).
Proof.
  assert (∃ pr', PassThrough Ex.backend_gone (Ex.bound1 0 false false) 7%nat
                 = Returned None pr') as [pr' Hcall]
    by (eexists; vm_compute; reflexivity).
  destruct (PassThrough_step_order_events Ex.backend_gone
              (Ex.bound1 0 false false) 7%nat Ex.backend1 None pr'
              eq_refl eq_refl Hcall) as (payload & Hin).
  exists pr', payload. split; [exact Hcall |]. split; [exact Hin |].
  split; [reflexivity |].
  destruct (PassThrough_hook_payloads Ex.backend_gone (Ex.bound1 0 false false)
              7%nat Ex.backend1 None pr' eq_refl eq_refl Hcall OnEgressTraffic
              payload Hin) as (Herror & _ & Hnil).
  split; [exact Herror | apply Hnil; reflexivity].
Defined.

(** ** [Connect] on a pool that has backends *)

Lemma first_string_key_head l s v rest :
  l = (KStr s, v) :: rest → Pool.visit_all first_string_key l "" = s.
Proof. by intros ->. Qed.

(** On a well-formed engine with an available backend, the iteration of
    [Connect] picks the identifier of a backend of the pool. *)
Lemma first_clientID_available env pr :
  well_formed pr →
  Pool.entries (availableConnections pr) ≠ ∅ →
  ∃ c,
    first_clientID env pr = ID c
    ∧ Pool.entries (availableConnections pr) !! KStr (ID c) = Some (VClient c).
Proof.
  intros (_ & Hav & _) Hne. unfold first_clientID, Pool.ForEach.
  destruct (Pool.visit_order (rank env) (availableConnections pr))
    as [|[k v] rest] eqn:Hl.
  - exfalso. apply Hne. apply map_to_list_empty_iff.
    apply Permutation_nil_r. unfold Pool.visit_order in Hl.
    by rewrite <- Hl, merge_sort_Permutation.
  - assert ((k, v) ∈ Pool.visit_order (rank env) (availableConnections pr))
      as Hin by (rewrite Hl; apply elem_of_cons; auto).
    apply visit_order_elem in Hin.
    destruct (Hav k v Hin) as (c & -> & ->).
    exists c. split; [reflexivity | exact Hin].
Qed.

(** [Connect] on a pool that has a backend to give: the engine it
    leaves. *)
Lemma Connect_takes_available env pr g :
  well_formed pr →
  Pool.entries (availableConnections pr) ≠ ∅ →
  long_ids pr →
  ∃ c logs,
    only_logs logs
    ∧ Pool.entries (availableConnections pr) !! KStr (ID c) = Some (VClient c)
    ∧ Connect env pr g
      = Returned None
          (mkProxy
             (Pool.mk (Pool.cap (availableConnections pr))
                (delete (KStr (ID c)) (Pool.entries (availableConnections pr))))
             (Pool.mk (Pool.cap (busyConnections pr))
                (<[KConn g := VClient c]> (Pool.entries (busyConnections pr))))
             (Elastic pr) (ReuseElasticClients pr) (ClientConfig pr)
             (trace pr ++ logs)).
Proof.
  intros Hwf Hne Hids.
  destruct (first_clientID_available env pr Hwf Hne) as (c & Hid & Hc).
  pose proof Hwf as (Hbusy & _).
  assert (IsExhausted pr = false) as Hex.
  { apply IsExhausted_false. right; left. rewrite Size_zero_empty. exact Hne. }
  rewrite Connect_not_exhausted by exact Hex. rewrite Hid, Hc.
  match goal with |- context [Connect_bind ?e ?p ?g' _] =>
    destruct (Connect_bind_client e p g' c Hbusy) as (logs & Hlogs & ->) end.
  rewrite (Hids _ _ Hc). exists c, logs. by repeat split.
Qed.

(** X11. On a well-formed engine whose available pool is not empty and
    holds identifiers of seven bytes or more, [Connect] returns nil for
    any inbound connection, in any mode: it takes a backend out of the
    available pool and binds it to the connection. *)
Theorem Connect_succeeds env pr g
    (Hwf : well_formed pr)
    (Hne : Pool.entries (availableConnections pr) ≠ ∅)
    (Hids : long_ids pr) :
  ∃ c pr',
    Connect env pr g = Returned None pr'
    ∧ Pool.entries (availableConnections pr) !! KStr (ID c) = Some (VClient c)
    ∧ Pool.entries (availableConnections pr')
      = delete (KStr (ID c)) (Pool.entries (availableConnections pr))
    ∧ Pool.entries (busyConnections pr')
      = <[KConn g := VClient c]> (Pool.entries (busyConnections pr))
    ∧ Pool.Size (availableConnections pr')
      = Pool.Size (availableConnections pr) - 1.
Proof.
  destruct (Connect_takes_available env pr g Hwf Hne Hids)
    as (c & logs & _ & Hc & ->).
  exists c. eexists. split; [reflexivity |].
  split; [exact Hc |]. split; [reflexivity |]. split; [reflexivity |].
  unfold Pool.Size. cbn [availableConnections Pool.entries].
  rewrite map_size_delete, Hc.
  pose proof (map_size_ne_0_lookup_2 _ _ (mk_is_Some _ _ Hc)). lia.
Qed.

Lemma engine1_long_ids capacity elastic reuse :
  long_ids (Ex.engine1 capacity elastic reuse).
Proof.
  intros k c H. cbn in H. apply lookup_singleton_Some in H as [_ [= <-]].
  reflexivity.
Qed.

Lemma Connect_succeeds_witness :
  ∃ c pr',
    Connect Ex.quiet (Ex.engine1 1 true true) 7%nat = Returned None pr'
    ∧ Pool.entries (busyConnections pr')
      = <[KConn 7%nat := VClient c]>
          (Pool.entries (busyConnections (Ex.engine1 1 true true))).
Proof.
  destruct (Connect_succeeds Ex.quiet (Ex.engine1 1 true true) 7%nat)
    as (c & pr' & Hcall & _ & _ & Hb & _).
  - apply engine1_well_formed. lia.
  - discriminate.
  - apply engine1_long_ids.
  - eauto.
Defined.

(** X12. [Connect] followed by [Disconnect] of the same inbound
    connection puts both pools back as they were, on a well-formed engine
    that is not elastic or reuses clients, for a connection that was not
    bound. *)
Theorem Connect_Disconnect_round_trip env env' pr g pr1
    (Hwf : well_formed pr)
    (Hmode : Elastic pr = false ∨ ReuseElasticClients pr = true)
    (Hfresh : Pool.entries (busyConnections pr) !! KConn g = None)
    (Hcall : Connect env pr g = Returned None pr1) :
  ∃ pr2,
    Disconnect env' pr1 g = Returned None pr2
    ∧ availableConnections pr2 = availableConnections pr
    ∧ busyConnections pr2 = busyConnections pr.
Proof.
  pose proof (Connect_keeps env pr g None pr1 Hwf Hfresh Hcall)
    as (Hwf1 & Hel & Hre & _).
  pose proof Hwf as (Hbusy & Hav & _ & _ & Hcap).
  apply Connect_returns_nil in Hcall as (c & logs & _ & Hlook & ->);
    [| exact Hbusy].
  destruct (Hav _ _ Hlook) as (c0 & Hk & [= <-]).
  set (k := KStr (first_clientID env pr)) in *.
  match goal with |- context [Disconnect env' ?p g] => set (pr1 := p) in * end.
  assert (Pool.entries (busyConnections pr1) !! KConn g = Some (VClient c))
    as Hb1 by (cbn; apply lookup_insert_eq).
  assert (Pool.full (availableConnections pr1) = false) as Hroom.
  { unfold Pool.full. apply andb_false_iff. rewrite !bool_decide_eq_false.
    unfold Pool.Size, Pool.Cap in *.
    cbn [pr1 availableConnections Pool.cap Pool.entries].
    rewrite map_size_delete, Hlook.
    pose proof (map_size_ne_0_lookup_2 _ _ (mk_is_Some _ _ Hlook)).
    destruct Hcap; [left | right]; lia. }
  assert (Elastic pr1 = false ∨ ReuseElasticClients pr1 = true) as Hmode1
    by exact Hmode.
  destruct (Disconnect_recycles env' pr1 g c Hb1 Hmode1 Hroom)
    as (logs' & _ & ->).
  eexists. split; [reflexivity |].
  cbn [availableConnections busyConnections pr1 Pool.cap Pool.entries].
  split.
  - rewrite <- Hk, insert_delete_eq, insert_id by exact Hlook.
    by destruct (availableConnections pr).
  - rewrite delete_insert_eq, delete_id by exact Hfresh.
    by destruct (busyConnections pr).
Qed.

Lemma Connect_Disconnect_round_trip_witness :
  ∃ pr1 pr2,
    Connect Ex.quiet (Ex.engine1 1 false false) 7%nat = Returned None pr1
    ∧ Disconnect Ex.quiet pr1 7%nat = Returned None pr2
    ∧ availableConnections pr2 = availableConnections (Ex.engine1 1 false false)
    ∧ busyConnections pr2 = busyConnections (Ex.engine1 1 false false).
Proof.
  assert (∃ pr1, Connect Ex.quiet (Ex.engine1 1 false false) 7%nat
                 = Returned None pr1) as [pr1 Hcall]
    by (eexists; vm_compute; reflexivity).
  destruct (Connect_Disconnect_round_trip Ex.quiet Ex.quiet
              (Ex.engine1 1 false false) 7%nat pr1) as (pr2 & H2 & Ha & Hb).
  - apply engine1_well_formed. lia.
  - left. reflexivity.
  - reflexivity.
  - exact Hcall.
  - exists pr1, pr2. auto.
Defined.

(** X13. The invariants of the data model are kept along every sequence
    of [Connect] and [Disconnect] calls in which no call crashes and
    [Connect] is called for unbound connections only, on an engine that is
    not elastic or reuses clients: no backend is both available and busy,
    and no two inbound connections are bound to backends with the same
    identifier. *)
Theorem run_keeps_well_formed calls pr pr'
    (Hwf : well_formed pr)
    (Hmode : Elastic pr = false ∨ ReuseElasticClients pr = true)
    (Horder : orderly calls pr)
    (Hrun : run calls pr = Some pr') :
  well_formed pr'
  ∧ (∀ g c, Pool.entries (busyConnections pr') !! KConn g = Some (VClient c) →
            Pool.entries (availableConnections pr') !! KStr (ID c) = None)
  ∧ (∀ g1 g2 c1 c2,
       Pool.entries (busyConnections pr') !! KConn g1 = Some (VClient c1) →
       Pool.entries (busyConnections pr') !! KConn g2 = Some (VClient c2) →
       ID c1 = ID c2 → g1 = g2).
Proof.
  assert (well_formed pr') as Hwf'.
  { revert pr Hwf Hmode Horder Hrun.
    induction calls as [|[env c] rest IH]; intros pr Hwf Hmode Horder Hrun.
    - cbn in Hrun. by inversion Hrun; subst.
    - cbn [run] in Hrun. cbn [orderly] in Horder.
      destruct Horder as [Hfresh Hrest].
      destruct (call env pr c) as [r pr1|eff] eqn:Hcall; [| discriminate].
      assert (kept pr pr1) as (Hwf1 & Hel & Hre & _).
      { destruct c as [g|g]; cbn [call] in Hcall.
        - by apply (Connect_keeps env pr g r).
        - by apply (Disconnect_keeps env pr g r). }
      apply (IH pr1); try done. by rewrite Hel, Hre. }
  split; [exact Hwf' |]. destruct Hwf' as (_ & _ & Hbu & Hid & _). split.
  - intros g c Hg. destruct (Hbu _ _ Hg) as (c' & [= <-] & Hc'). exact Hc'.
  - intros g1 g2 c1 c2 H1 H2 Heq.
    pose proof (Hid _ _ _ _ H1 H2 Heq) as Hk. by inversion Hk.
Qed.

Lemma run_keeps_well_formed_witness :
  ∃ pr',
    run [(Ex.quiet, CallConnect 7%nat); (Ex.quiet, CallDisconnect 7%nat);
         (Ex.quiet, CallConnect 8%nat)] (Ex.engine1 1 false false) = Some pr'
    ∧ well_formed pr'.
Proof.
  eexists. split; [vm_compute; reflexivity |].
  apply (run_keeps_well_formed
           [(Ex.quiet, CallConnect 7%nat); (Ex.quiet, CallDisconnect 7%nat);
            (Ex.quiet, CallConnect 8%nat)] (Ex.engine1 1 false false)).
  - apply engine1_well_formed. lia.
  - left. reflexivity.
  - vm_compute. auto.
  - vm_compute. reflexivity.
Defined.

(** X14. A bounded, non-elastic, well-formed engine serves as many
    inbound connections as it has available backends and no more: for
    distinct unbound connections, as many as the available pool holds,
    every [Connect] returns nil and binds a backend that was available;
    after them the available pool is empty and any further [Connect], for
    any connection, is refused with the pool-exhausted error and changes
    nothing. *)
Theorem connects_until_exhausted envs pr
    (Hwf : well_formed pr)
    (Hel : Elastic pr = false)
    (Hcap : 0 < Pool.Cap (availableConnections pr))
    (Hids : long_ids pr)
    (Hdup : NoDup envs.*2)
    (Hfresh : ∀ g, g ∈ envs.*2 →
                   Pool.entries (busyConnections pr) !! KConn g = None)
    (Hlen : Z.of_nat (length envs) = Pool.Size (availableConnections pr)) :
  ∃ pr',
    run (connect_all envs) pr = Some pr'
    ∧ Pool.entries (availableConnections pr') = ∅
    ∧ (∀ g, g ∈ envs.*2 →
            ∃ c, Pool.entries (busyConnections pr') !! KConn g = Some (VClient c)
                 ∧ Pool.entries (availableConnections pr) !! KStr (ID c)
                   = Some (VClient c))
    ∧ (∀ k, (∀ g, g ∈ envs.*2 → k ≠ KConn g) →
            Pool.entries (busyConnections pr') !! k
            = Pool.entries (busyConnections pr) !! k)
    ∧ ∀ env g, Connect env pr' g = Returned (Some ErrPoolExhausted) pr'.
Proof.
  revert pr Hwf Hel Hcap Hids Hdup Hfresh Hlen.
  induction envs as [|[env g] rest IH];
    intros pr Hwf Hel Hcap Hids Hdup Hfresh Hlen.
  - exists pr. cbn in Hlen. symmetry in Hlen.
    split; [reflexivity |]. split; [by apply Size_zero_empty |].
    split; [intros g Hg; by apply elem_of_nil in Hg |]. split; [done |].
    intros env g.
    assert (IsExhausted pr = true) as Hx
      by (apply IsExhausted_true; repeat split; [done | done | lia]).
    unfold Connect. by rewrite Hx, Hel.
  - cbn [fmap list_fmap snd] in Hdup, Hfresh.
    apply NoDup_cons in Hdup as [Hg Hdup].
    assert (Pool.entries (availableConnections pr) ≠ ∅) as Hne.
    { intros Hempty. apply Size_zero_empty in Hempty. cbn [length] in Hlen. lia. }
    assert (Pool.entries (busyConnections pr) !! KConn g = None) as Hgfresh
      by (apply Hfresh, elem_of_cons; auto).
    destruct (Connect_takes_available env pr g Hwf Hne Hids)
      as (c & logs & _ & Hc & Hcall).
    match type of Hcall with _ = Returned None ?p => set (pr1 := p) in * end.
    pose proof (Connect_keeps env pr g None pr1 Hwf Hgfresh Hcall)
      as (Hwf1 & Hel1 & _).
    assert (Pool.entries (availableConnections pr1)
            = delete (KStr (ID c)) (Pool.entries (availableConnections pr)))
      as Hav1 by reflexivity.
    assert (Pool.entries (busyConnections pr1)
            = <[KConn g := VClient c]> (Pool.entries (busyConnections pr)))
      as Hbu1 by reflexivity.
    assert (Pool.Cap (availableConnections pr1)
            = Pool.Cap (availableConnections pr)) as Hcap1 by reflexivity.
    assert (Pool.Size (availableConnections pr1)
            = Pool.Size (availableConnections pr) - 1) as Hsize1.
    { unfold Pool.Size. rewrite Hav1, map_size_delete, Hc.
      pose proof (map_size_ne_0_lookup_2 _ _ (mk_is_Some _ _ Hc)). lia. }
    clearbody pr1.
    destruct (IH pr1) as (pr' & Hrun & Hempty & Hbound & Hother & Hrefuse).
    + exact Hwf1.
    + by rewrite Hel1.
    + by rewrite Hcap1.
    + intros k c' Hk. rewrite Hav1 in Hk.
      apply lookup_delete_Some in Hk as [_ Hk]. by apply (Hids k).
    + exact Hdup.
    + intros g' Hg'. rewrite Hbu1, lookup_insert_ne.
      * apply Hfresh, elem_of_cons. auto.
      * intros [= ->]. contradiction.
    + rewrite Hsize1. cbn [length] in Hlen. lia.
    + exists pr'. split; [| split; [exact Hempty | split; [| split]]].
      * cbn [connect_all fmap list_fmap run call fst snd]. rewrite Hcall.
        exact Hrun.
      * intros g' Hg'. apply elem_of_cons in Hg' as [-> | Hg'].
        -- exists c. split; [| exact Hc].
           rewrite Hother; [rewrite Hbu1; apply lookup_insert_eq |].
           intros g'' Hg'' [= ->]. contradiction.
        -- destruct (Hbound g' Hg') as (c' & Hb' & Ha').
           exists c'. split; [exact Hb' |]. rewrite Hav1 in Ha'.
           by apply lookup_delete_Some in Ha' as [_ Ha'].
      * intros k Hk. rewrite Hother.
        -- rewrite Hbu1, lookup_insert_ne; [done |].
           intros <-. apply (Hk g); [apply elem_of_cons; auto | done].
        -- intros g' Hg'. apply Hk, elem_of_cons. auto.
      * exact Hrefuse.
Qed.

Lemma connects_until_exhausted_witness :
  ∃ pr',
    run (connect_all [(Ex.quiet, 7%nat)]) (Ex.engine1 1 false false) = Some pr'
    ∧ ∀ env g, Connect env pr' g = Returned (Some ErrPoolExhausted) pr'.
Proof.
  destruct (connects_until_exhausted [(Ex.quiet, 7%nat)]
              (Ex.engine1 1 false false)) as (pr' & Hrun & _ & _ & _ & Hrefuse).
  - apply engine1_well_formed. lia.
  - reflexivity.
  - reflexivity.
  - apply engine1_long_ids.
  - apply NoDup_singleton.
  - intros g _. reflexivity.
  - reflexivity.
  - eauto.
Defined.

(** ** [Shutdown] counts *)

Lemma visit_all_close_available_count l pr :
  (∀ k v, (k, v) ∈ l → ∃ c, v = VClient c) →
  ∃ evs,
    Pool.visit_all close_available l pr = add_events pr evs
    ∧ count_events is_client_closed evs = Z.of_nat (length l)
    ∧ count_events is_created evs = 0.
Proof.
  revert pr. induction l as [|[k v] l IH]; intros pr Hl.
  - exists []. by rewrite add_events_nil.
  - destruct (Hl k v) as [c ->]; [apply elem_of_cons; auto |].
    cbn [Pool.visit_all close_available].
    destruct (IH (emit (ClientClosed c) pr)) as (evs & -> & Hcl & Hcr).
    { intros k' v' H. apply (Hl k'). apply elem_of_cons. auto. }
    exists (ClientClosed c :: evs). split; [| split].
    + by rewrite emit_add, add_events_add.
    + change (ClientClosed c :: evs) with ([ClientClosed c] ++ evs).
      rewrite count_events_app, Hcl. unfold count_events. cbn. lia.
    + change (ClientClosed c :: evs) with ([ClientClosed c] ++ evs).
      rewrite count_events_app, Hcr. reflexivity.
Qed.

Lemma visit_all_close_busy_count l pr :
  (∀ k v, (k, v) ∈ l → ∃ c, v = VClient c) →
  ∃ evs,
    Pool.visit_all close_busy l pr = add_events pr evs
    ∧ count_events is_client_closed evs = Z.of_nat (length l)
    ∧ count_events is_created evs = 0.
Proof.
  revert pr. induction l as [|[k v] l IH]; intros pr Hl.
  - exists []. by rewrite add_events_nil.
  - destruct (Hl k v) as [c ->]; [apply elem_of_cons; auto |].
    cbn [Pool.visit_all close_busy].
    match goal with |- context [Pool.visit_all close_busy l ?p] =>
      destruct (IH p) as (evs & -> & Hcl & Hcr) end.
    { intros k' v' H. apply (Hl k'). apply elem_of_cons. auto. }
    exists ((match k with KConn gconn => [ConnClosed gconn] | _ => [] end)
            ++ [ClientClosed c] ++ evs).
    split; [| split].
    + destruct k; rewrite ?emit_add, ?add_events_add; reflexivity.
    + rewrite !count_events_app, Hcl.
      destruct k; unfold count_events; cbn; lia.
    + rewrite !count_events_app, Hcr.
      destruct k; unfold count_events; cbn; lia.
Qed.

Lemma visit_order_length rank (p : Pool.t) :
  Z.of_nat (length (Pool.visit_order rank p)) = Pool.Size p.
Proof.
  unfold Pool.visit_order, Pool.Size.
  by rewrite merge_sort_Permutation, length_map_to_list.
Qed.

(** X15. When the pools hold backend clients only, [Shutdown] closes as
    many backends as the two pools held and creates none; on a balanced
    engine every backend ever created has then been closed, and the
    engine is still balanced. *)
Theorem Shutdown_closes_every_backend env pr
    (Hclients : only_clients pr)
    (Hbal : balanced pr) :
  closed (Shutdown env pr)
  = closed pr + Pool.Size (availableConnections pr)
    + Pool.Size (busyConnections pr)
  ∧ created (Shutdown env pr) = created pr
  ∧ created (Shutdown env pr) - closed (Shutdown env pr) = 0
  ∧ balanced (Shutdown env pr).
Proof.
  assert (∃ evs1 evs2,
            Shutdown env pr
            = mkProxy (Pool.mk (Pool.cap (availableConnections pr)) ∅)
                (Pool.mk (Pool.cap (busyConnections pr)) ∅)
                (Elastic pr) (ReuseElasticClients pr) (ClientConfig pr)
                (trace pr ++ evs1 ++ evs2)
            ∧ count_events is_client_closed evs1
              = Pool.Size (availableConnections pr)
            ∧ count_events is_created evs1 = 0
            ∧ count_events is_client_closed evs2 = Pool.Size (busyConnections pr)
            ∧ count_events is_created evs2 = 0)
    as (evs1 & evs2 & Heq & Hc1 & Hn1 & Hc2 & Hn2).
  { unfold Shutdown, Pool.ForEach.
    destruct (visit_all_close_available_count
                (Pool.visit_order (rank env) (availableConnections pr)) pr)
      as (evs1 & Heq1 & Hc1 & Hn1).
    { intros k v H. apply visit_order_elem in H. apply (Hclients k). auto. }
    rewrite Heq1.
    cbn [availableConnections busyConnections add_events set_available].
    match goal with |- context [Pool.visit_all close_busy ?l ?p] =>
      destruct (visit_all_close_busy_count l p) as (evs2 & Heq2 & Hc2 & Hn2) end.
    { intros k v H. apply visit_order_elem in H. apply (Hclients k). auto. }
    rewrite Heq2. exists evs1, evs2.
    rewrite visit_order_length in Hc1, Hc2.
    split; [| done].
    unfold set_busy, set_available, add_events, Pool.Clear. cbn.
    by rewrite <- app_assoc. }
  assert (closed (Shutdown env pr)
          = closed pr + Pool.Size (availableConnections pr)
            + Pool.Size (busyConnections pr)) as Hclosed.
  { unfold closed. rewrite Heq. cbn [trace].
    rewrite !count_events_app, Hc1, Hc2. lia. }
  assert (created (Shutdown env pr) = created pr) as Hcreated.
  { unfold created. rewrite Heq. cbn [trace].
    rewrite !count_events_app, Hn1, Hn2. lia. }
  unfold balanced in *. rewrite Hclosed, Hcreated.
  split; [reflexivity |]. split; [reflexivity |]. split; [lia |].
  rewrite Heq. unfold Pool.Size.
  cbn [availableConnections busyConnections Pool.entries].
  rewrite map_size_empty. unfold Pool.Size in Hbal. lia.
Qed.

Lemma Shutdown_closes_every_backend_witness :
  created (Shutdown Ex.quiet (Ex.bound1 0 false false))
  - closed (Shutdown Ex.quiet (Ex.bound1 0 false false)) = 0.
Proof.
  apply (Shutdown_closes_every_backend Ex.quiet (Ex.bound1 0 false false)).
  - intros k v [H|H]; cbn in H.
    + by rewrite lookup_empty in H.
    + apply lookup_singleton_Some in H as [_ <-]. eauto.
  - reflexivity.
Defined.

(** ** The population of the pool *)

(** What holds of the pool and of the events after [n] turns on an
    unbounded pool. *)
Lemma populate_turns env dial n :
  let acc := foldl (populate_step env dial)
               (Pool.NewPool EmptyPoolCapacity, []) (seq 0 n) in
  Pool.Cap acc.1 = EmptyPoolCapacity
  ∧ (∀ k v, Pool.entries acc.1 !! k = Some v →
            ∃ i c, (i < n)%nat ∧ dial i = Some c ∧ k = KStr (ID c) ∧ v = VClient c)
  ∧ (∀ i c, (i < n)%nat → dial i = Some c →
            is_Some (Pool.entries acc.1 !! KStr (ID c)))
  ∧ (size (Pool.entries acc.1) ≤ n)%nat
  ∧ (size (Pool.entries acc.1) = n ↔ all_dialled dial n)
  ∧ (all_dialled dial n → count_events is_created acc.2 = Z.of_nat n).
Proof.
  induction n as [|n IH].
  - cbn. split; [done |]. split; [intros k v H; by rewrite lookup_empty in H |].
    split; [intros; lia |]. split; [by rewrite map_size_empty |].
    split; [| done]. rewrite map_size_empty. split; [| done].
    intros _. split; intros; lia.
  - rewrite seq_S, foldl_app. cbn [foldl plus].
    set (acc := foldl (populate_step env dial)
                  (Pool.NewPool EmptyPoolCapacity, []) (seq 0 n)) in *.
    cbn zeta in IH. destruct IH as (Hcap & Hkeys & Hall & Hle & Hiff & Hcount).
    unfold populate_step. cbn zeta.
    destruct (dial n) as [c|] eqn:Hn.
    + rewrite Put_unbounded by exact Hcap. cbn [fst snd Pool.entries].
      split; [exact Hcap |]. split; [| split; [| split; [| split]]].
      * intros k v H. apply lookup_insert_Some in H as [[<- <-] | [_ H]].
        -- exists n, c. split; [lia | done].
        -- destruct (Hkeys k v H) as (i & c' & Hi & ?). exists i, c'.
           split; [lia | done].
      * intros i c' Hi Hd. destruct (decide (ID c' = ID c)) as [Heq|Hne].
        -- rewrite Heq, lookup_insert_eq. eauto.
        -- rewrite lookup_insert_ne by congruence.
           apply Hall with i; [| done].
           destruct (decide (i = n)) as [->|]; [congruence | lia].
      * rewrite map_size_insert.
        destruct (Pool.entries acc.1 !! KStr (ID c)); cbn; lia.
      * rewrite map_size_insert.
        destruct (Pool.entries acc.1 !! KStr (ID c)) as [v|] eqn:Hc; cbn.
        -- split; [lia |]. intros [_ Hinj].
           destruct (Hkeys _ _ Hc) as (i & c' & Hi & Hd & [= Hid] & _).
           assert (n = i) by (apply (Hinj n i c c'); [lia | lia | done | done | done]).
           lia.
        -- split.
           ++ intros Hs. assert (all_dialled dial n) as [Hsome Hinj]
                by (apply Hiff; lia).
              split.
              ** intros i Hi. destruct (decide (i = n)) as [->|];
                   [eauto | apply Hsome; lia].
              ** intros i j c1 c2 Hi Hj H1 H2 Heq.
                 destruct (decide (i = n)) as [->|Hin];
                   destruct (decide (j = n)) as [->|Hjn]; [done | | |].
                 --- assert (H1' : c1 = c) by congruence. subst c1.
                     destruct (Hall j c2) as [v Hv]; [lia | done |].
                     rewrite <- Heq in Hv. congruence.
                 --- assert (H2' : c2 = c) by congruence. subst c2.
                     destruct (Hall i c1) as [v Hv]; [lia | done |].
                     rewrite Heq in Hv. congruence.
                 --- apply (Hinj i j c1 c2); [lia | lia | done | done | done].
           ++ intros [Hsome Hinj]. f_equal. apply Hiff. split.
              ** intros i Hi. apply Hsome. lia.
              ** intros i j c1 c2 Hi Hj. apply Hinj; lia.
      * intros [Hsome Hinj]. rewrite count_events_app, Hcount.
        -- unfold count_events. cbn. lia.
        -- split; [intros i Hi; apply Hsome; lia |].
           intros i j c1 c2 Hi Hj. apply Hinj; lia.
    + cbn [fst snd].
      split; [exact Hcap |]. split; [| split; [| split; [| split]]].
      * intros k v H. destruct (Hkeys k v H) as (i & c' & Hi & ?).
        exists i, c'. split; [lia | done].
      * intros i c' Hi Hd. apply Hall with i; [| done].
        destruct (decide (i = n)) as [->|]; [congruence | lia].
      * lia.
      * split; [lia |]. intros [Hsome _].
        destruct (Hsome n) as [c Hc]; [lia | congruence].
      * intros [Hsome _]. destruct (Hsome n) as [c Hc]; [lia | congruence].
Qed.

(** X16. The start-up loop fills an unbounded pool with the clients that
    [NewClient] gave, each under its identifier.  The check that follows
    passes exactly when the configured size is not negative, every turn
    gave a client and no two clients have the same identifier; the engine
    that [NewProxy] then builds satisfies the invariants of the data model,
    and as many backends were created as the pool holds. *)
Theorem populate_check env dial poolSize elastic reuse cfg :
  let filled := populate env EmptyPoolCapacity dial poolSize in
  (∀ k v, Pool.entries filled.1 !! k = Some v →
          ∃ i c, Z.of_nat i < poolSize ∧ dial i = Some c
                 ∧ k = KStr (ID c) ∧ v = VClient c)
  ∧ (pool_is_populated filled.1 poolSize = true ↔
     0 <= poolSize ∧ all_dialled dial (Z.to_nat poolSize))
  ∧ (pool_is_populated filled.1 poolSize = true →
     well_formed (NewProxy filled.1 elastic reuse cfg)
     ∧ count_events is_created filled.2 = Pool.Size filled.1).
Proof.
  intros filled.
  destruct (populate_turns env dial (Z.to_nat poolSize))
    as (Hcap & Hkeys & _ & Hle & Hiff & Hcount).
  cbn zeta in *. fold (populate env EmptyPoolCapacity dial poolSize) in *.
  fold filled in Hcap, Hkeys, Hle, Hiff, Hcount.
  assert (pool_is_populated filled.1 poolSize = true ↔
          0 <= poolSize ∧ all_dialled dial (Z.to_nat poolSize)) as Hcheck.
  { unfold pool_is_populated, Pool.Size. rewrite bool_decide_eq_true. split.
    - intros Hs. split; [lia |]. apply Hiff. lia.
    - intros [Hpos Hall]. apply Hiff in Hall. lia. }
  split; [| split; [exact Hcheck |]].
  - intros k v H. destruct (Hkeys k v H) as (i & c & Hi & ?).
    exists i, c. split; [lia | done].
  - intros Hok. apply Hcheck in Hok as [Hpos Hall]. split.
    + split; [reflexivity |]. split; [| split; [| split]].
      * intros k v H. destruct (Hkeys k v H) as (i & c & _ & _ & ? & ?). eauto.
      * intros k v H. cbn in H. by rewrite lookup_empty in H.
      * intros k1 k2 c1 c2 H. cbn in H. by rewrite lookup_empty in H.
      * left. cbn [NewProxy availableConnections]. rewrite Hcap. done.
    + rewrite (Hcount Hall). unfold Pool.Size. f_equal. symmetry.
      by apply Hiff.
Qed.

Lemma populate_check_witness :
  pool_is_populated
    (populate Ex.quiet EmptyPoolCapacity
       (λ i, match i with
             | 0%nat => Some Ex.backend1
             | _ => Some Ex.backend2
             end) 2).1 2 = true.
Proof.
  apply (populate_check Ex.quiet
           (λ i, match i with
                 | 0%nat => Some Ex.backend1
                 | _ => Some Ex.backend2
                 end) 2 false false None).
  split; [lia |]. split.
  - intros [|[|i]] Hi; eauto.
  - intros [|[|i]] [|[|j]] c1 c2 Hi Hj; cbn in Hi, Hj; try lia;
      intros [= <-] [= <-]; done.
Defined.

(** X17. The init command writes the config file only after the defaults
    were marshalled and only when the file is absent or [--force] is set;
    when it ends with its message, the verb is "overwritten" exactly when
    the file was there, and then [--force] was set. *)
Theorem init_run_respects_force force marshalled stat_ok write_err :
  let out := init_run force marshalled stat_ok write_err in
  (∀ content, written out = Some content →
      marshalled = inl content ∧ (stat_ok = false ∨ force = true))
  ∧ (∀ verb, ended out = InitPrinted verb →
      is_Some (written out) ∧ write_err = None
      ∧ (verb = "overwritten" ∧ stat_ok = true ∧ force = true
         ∨ verb = "created" ∧ stat_ok = false))
  ∧ (stat_ok = true → force = false → written out = None).
Proof.
  destruct marshalled as [cfg|err], stat_ok, force, write_err as [w|];
    cbn [init_run andb negb written ended]; (split; [| split]);
    try discriminate; try reflexivity;
    try (intros content Hw; by inversion Hw);
    try (intros content Hw; injection Hw as <-; split; [reflexivity | auto]);
    try (intros verb He; injection He as <-;
         split; [eauto |]; split; [reflexivity |];
         first [left; repeat split; reflexivity
               | right; repeat split; reflexivity]).
Qed.

(** ** Room in the available pool *)

Lemma Connect_keeps_room env pr g r pr' :
  Pool.Cap (busyConnections pr) = EmptyPoolCapacity →
  has_room pr →
  Connect env pr g = Returned r pr' →
  has_room pr' ∧ Pool.Cap (busyConnections pr') = EmptyPoolCapacity.
Proof.
  intros Hbusy Hroom H. destruct r as [e|].
  - apply Connect_error in H as (_ & _ & ->); done.
  - apply Connect_returns_nil in H as (c & logs & _ & Hlook & ->);
      [| exact Hbusy].
    split; [| exact Hbusy].
    unfold has_room, Pool.Cap, Pool.Size in *.
    cbn [availableConnections busyConnections Pool.cap Pool.entries].
    rewrite map_size_delete, Hlook.
    pose proof (map_size_ne_0_lookup_2 _ _ (mk_is_Some _ _ Hlook)).
    pose proof (map_size_insert (KConn g) (VClient c)
                  (Pool.entries (busyConnections pr))) as Hins.
    destruct (Pool.entries (busyConnections pr) !! KConn g);
      rewrite Hins; unfold id;
      destruct Hroom; [left | right | left | right]; lia.
Qed.

Lemma Disconnect_keeps_room env pr g r pr' :
  Pool.Cap (busyConnections pr) = EmptyPoolCapacity →
  has_room pr →
  Disconnect env pr g = Returned r pr' →
  has_room pr' ∧ Pool.Cap (busyConnections pr') = EmptyPoolCapacity.
Proof.
  intros Hbusy Hroom H.
  destruct (Pool.entries (busyConnections pr) !! KConn g) as [v|] eqn:Hlook.
  2: { rewrite Disconnect_unbound in H by exact Hlook.
       by apply Returned_inj in H as [_ <-]. }
  assert (Z.of_nat (size (delete (KConn g) (Pool.entries (busyConnections pr))))
          = Pool.Size (busyConnections pr) - 1) as Hdel.
  { unfold Pool.Size. rewrite map_size_delete, Hlook.
    pose proof (map_size_ne_0_lookup_2 _ _ (mk_is_Some _ _ Hlook)). lia. }
  pose proof (Size_nonneg (availableConnections pr)) as Hnn.
  destruct v as [c|n].
  - destruct (decide (Elastic pr = false ∨ ReuseElasticClients pr = true))
      as [Hmode|Hmode].
    + destruct (Pool.full (availableConnections pr)) eqn:Hfull.
      * destruct (Disconnect_no_room env pr g c Hlook Hmode Hfull)
          as (logs & _ & _ & Heq).
        rewrite Heq in H. apply Returned_inj in H as [_ <-].
        split; [| exact Hbusy].
        unfold has_room, Pool.Size, Pool.Cap in *.
        cbn [availableConnections busyConnections Pool.cap Pool.entries].
        rewrite Hdel. destruct Hroom; [left | right]; lia.
      * destruct (Disconnect_recycles env pr g c Hlook Hmode Hfull)
          as (logs & _ & Heq).
        rewrite Heq in H. apply Returned_inj in H as [_ <-].
        split; [| exact Hbusy].
        unfold has_room, Pool.Size, Pool.Cap in *.
        cbn [availableConnections busyConnections Pool.cap Pool.entries].
        rewrite Hdel.
        pose proof (map_size_insert (KStr (ID c)) (VClient c)
                      (Pool.entries (availableConnections pr))) as Hins.
        destruct (Pool.entries (availableConnections pr) !! KStr (ID c));
          rewrite Hins; unfold id;
          destruct Hroom; [left | right | left | right]; lia.
    + assert (Elastic pr = true ∧ ReuseElasticClients pr = false) as [Hel Hre].
      { destruct (Elastic pr), (ReuseElasticClients pr); try done;
          destruct Hmode; auto. }
      unfold Disconnect, Pool.Pop in H. rewrite Hlook in H.
      cbn [set_busy Elastic ReuseElasticClients] in H.
      rewrite Hel, Hre in H. cbn [andb orb negb] in H.
      apply Returned_inj in H as [_ <-].
      split; [| exact Hbusy].
      unfold has_room, Pool.Size, Pool.Cap in *.
      cbn [availableConnections busyConnections set_busy Pool.cap Pool.entries].
      rewrite Hdel. destruct Hroom; [left | right]; lia.
  - unfold Disconnect, Pool.Pop in H. rewrite Hlook in H.
    apply Returned_inj in H as [_ <-].
    split; [| exact Hbusy].
    unfold has_room, Pool.Size, Pool.Cap in *.
    cbn [availableConnections busyConnections set_busy Pool.cap Pool.entries].
    rewrite Hdel. destruct Hroom; [left | right]; lia.
Qed.

Lemma PassThrough_keeps_room env pr g r pr' :
  Pool.Cap (busyConnections pr) = EmptyPoolCapacity →
  has_room pr →
  PassThrough env pr g = Returned r pr' →
  has_room pr' ∧ Pool.Cap (busyConnections pr') = EmptyPoolCapacity.
Proof.
  intros Hbusy Hroom H.
  destruct (PassThrough_keeps_pools env pr g r pr' Hbusy H) as [Hav Hsize].
  split; [unfold has_room in *; by rewrite Hav, Hsize |].
  destruct (Pool.entries (busyConnections pr) !! KConn g) as [[client|n]|] eqn:Hb.
  - destruct (PassThrough_returned env pr g client r pr' Hb Hbusy H)
      as (l0 & l1 & l2 & l3 & l4 & mid & c2 & body & _ & _ & _ & _ & _
          & _ & Hmid & _).
    destruct Hmid as [(_ & _ & _ & ->) | (_ & _ & _ & ->)]; exact Hbusy.
  - unfold PassThrough, Pool.Get in H. rewrite Hb in H.
    by apply Returned_inj in H as [_ <-].
  - unfold PassThrough, Pool.Get in H. rewrite Hb in H.
    by apply Returned_inj in H as [_ <-].
Qed.

(** X18. Room for every backend is an invariant of the engine.  It holds
    of the engine that [NewProxy] makes from a pool that is unbounded or
    within its capacity, and every [Connect], [Disconnect] and
    [PassThrough] that returns keeps it, along with the unbounded busy
    pool. *)
Theorem has_room_invariant :
  (∀ p elastic reuse cfg,
     Pool.Cap p <= 0 ∨ Pool.Size p <= Pool.Cap p →
     has_room (NewProxy p elastic reuse cfg)
     ∧ Pool.Cap (busyConnections (NewProxy p elastic reuse cfg))
       = EmptyPoolCapacity)
  ∧ (∀ env pr g r pr',
       Pool.Cap (busyConnections pr) = EmptyPoolCapacity →
       has_room pr →
       Connect env pr g = Returned r pr'
       ∨ Disconnect env pr g = Returned r pr'
       ∨ PassThrough env pr g = Returned r pr' →
       has_room pr'
       ∧ Pool.Cap (busyConnections pr') = EmptyPoolCapacity).
Proof.
  split.
  - intros p elastic reuse cfg Hp. split; [| reflexivity].
    unfold has_room, NewProxy, Pool.NewPool, Pool.Size.
    cbn [availableConnections busyConnections Pool.entries].
    rewrite map_size_empty. unfold Pool.Size in Hp.
    destruct Hp; [left | right]; lia.
  - intros env pr g r pr' Hbusy Hroom [H | [H | H]].
    + by apply (Connect_keeps_room env pr g r).
    + by apply (Disconnect_keeps_room env pr g r).
    + by apply (PassThrough_keeps_room env pr g r).
Qed.

Lemma has_room_invariant_witness :
  has_room (Ex.bound1 1 false false)
  ∧ ∃ pr',
      Disconnect Ex.quiet (Ex.bound1 1 false false) 7%nat = Returned None pr'
      ∧ has_room pr'.
Proof.
  assert (has_room (Ex.bound1 1 false false)) as Hroom
    by (right; vm_compute; discriminate).
  split; [exact Hroom |].
  assert (∃ pr', Disconnect Ex.quiet (Ex.bound1 1 false false) 7%nat
                 = Returned None pr') as [pr' Hcall]
    by (eexists; vm_compute; reflexivity).
  exists pr'. split; [exact Hcall |].
  destruct has_room_invariant as [_ Hkept].
  apply (Hkept Ex.quiet (Ex.bound1 1 false false) 7%nat None pr');
    [reflexivity | exact Hroom | right; left; exact Hcall].
Defined.
